(** * Contrastive and partial-label losses of [algorithm/utils_loss.py]

    A shallow embedding of the five loss modules ([InfoNCE], [InfoNCE2],
    [SupConLoss], [ConLoss], [PaPiLoss]) and the properties the
    specification states about them.

    Numbers.  A tensor entry is a [tnum]: a real number or one of the
    three special values of IEEE arithmetic ([+inf], [-inf], [nan]).  The
    operations follow the IEEE rules for the special values (so that a
    division by zero, the logarithm of a non-positive number or the mean
    of an empty tensor are what torch makes of them) and are exact on the
    reals: rounding, overflow of finite values and the sign of zero are
    not modelled.  An exact exponential is never zero, where the one of
    torch rounds to zero on a very negative argument; the properties of
    [ConLoss] that depend on a probability being positive are therefore
    stated for any softmax, with the condition on what it returns.

    Tensors.  A vector is a list of entries, a matrix a list of rows.  An
    elementwise operation of torch on two tensors is a zip; torch raises
    (or broadcasts) when the shapes disagree, the zip truncates, so the
    theorems state the shapes they need. *)

From Stdlib Require Import ZArith String.
From Stdlib Require Import Reals Lra Lia List Permutation Bool Arith.
Import ListNotations.

Set Implicit Arguments.

(* ================================================================= *)
(** ** Entries *)

Module Num.

Local Open Scope R_scope.

Inductive tnum : Type :=
| Fin (r : R)
| PInf
| NInf
| NaN.

Definition zero : tnum := Fin 0.
Definition one : tnum := Fin 1.

(** The infinity with the sign of [s]; [nan] when [s] is zero. *)
Definition inf_of_sign (s : R) : tnum :=
  if Rlt_dec 0 s then PInf else if Rlt_dec s 0 then NInf else NaN.

Definition tneg (a : tnum) : tnum :=
  match a with
  | Fin r => Fin (- r)
  | PInf => NInf
  | NInf => PInf
  | NaN => NaN
  end.

Definition tadd (a b : tnum) : tnum :=
  match a, b with
  | NaN, _ | _, NaN => NaN
  | Fin x, Fin y => Fin (x + y)
  | PInf, NInf | NInf, PInf => NaN
  | PInf, _ | _, PInf => PInf
  | NInf, _ | _, NInf => NInf
  end.

Definition tsub (a b : tnum) : tnum := tadd a (tneg b).

Definition tmul (a b : tnum) : tnum :=
  match a, b with
  | NaN, _ | _, NaN => NaN
  | Fin x, Fin y => Fin (x * y)
  | Fin x, PInf | PInf, Fin x => inf_of_sign x
  | Fin x, NInf | NInf, Fin x => inf_of_sign (- x)
  | PInf, PInf | NInf, NInf => PInf
  | PInf, NInf | NInf, PInf => NInf
  end.

Definition tdiv (a b : tnum) : tnum :=
  match a, b with
  | NaN, _ | _, NaN => NaN
  | Fin x, Fin y => if Req_dec_T y 0 then inf_of_sign x else Fin (x / y)
  | Fin _, _ => Fin 0
  | PInf, Fin y => if Rlt_dec y 0 then NInf else PInf
  | NInf, Fin y => if Rlt_dec y 0 then PInf else NInf
  | _, _ => NaN
  end.

Definition texp (a : tnum) : tnum :=
  match a with
  | Fin r => Fin (exp r)
  | PInf => PInf
  | NInf => Fin 0
  | NaN => NaN
  end.

Definition tlog (a : tnum) : tnum :=
  match a with
  | Fin r => if Rlt_dec 0 r then Fin (ln r)
             else if Req_dec_T r 0 then NInf else NaN
  | PInf => PInf
  | NInf | NaN => NaN
  end.

(** [torch.max] propagates [nan]. *)
Definition tmax (a b : tnum) : tnum :=
  match a, b with
  | NaN, _ | _, NaN => NaN
  | PInf, _ | _, PInf => PInf
  | NInf, x | x, NInf => x
  | Fin x, Fin y => Fin (Rmax x y)
  end.

(** [a > b]; false as soon as one side is [nan]. *)
Definition tgtb (a b : tnum) : bool :=
  match a, b with
  | NaN, _ | _, NaN => false
  | Fin x, Fin y => if Rlt_dec y x then true else false
  | PInf, PInf => false
  | PInf, _ => true
  | _, PInf => false
  | NInf, _ => false
  | Fin _, NInf => true
  end.

(** [a == b]; false as soon as one side is [nan]. *)
Definition teqb (a b : tnum) : bool :=
  match a, b with
  | Fin x, Fin y => if Req_dec_T x y then true else false
  | PInf, PInf | NInf, NInf => true
  | _, _ => false
  end.

Definition isnan (a : tnum) : bool :=
  match a with NaN => true | _ => false end.

Definition isfinite (a : tnum) : bool :=
  match a with Fin _ => true | _ => false end.

(** The constant [1e-12] added under the logarithms. *)
Definition eps : R := 1e-12.

End Num.

Export Num.

(* ================================================================= *)
(** ** Tensors *)

Definition vec : Type := list tnum.
Definition matrix : Type := list vec.

Section ListOps.
Variables A B C : Type.

(** Elementwise combination of two tensors of one shape. *)
Fixpoint zipWith (f : A -> B -> C) (l : list A) (m : list B) : list C :=
  match l, m with
  | a :: l', b :: m' => f a b :: zipWith f l' m'
  | _, _ => []
  end.

(** Boolean-mask indexing, [t[keep]]. *)
Fixpoint select (keep : list bool) (l : list A) : list A :=
  match keep, l with
  | k :: keep', a :: l' =>
      if k then a :: select keep' l' else select keep' l'
  | _, _ => []
  end.
End ListOps.

(** [torch.sum]; the sum of an empty tensor is [0]. *)
Definition tsum (v : vec) : tnum := fold_right tadd zero v.

(** [torch.mean]: the sum over the number of entries, [nan] on an empty
    tensor. *)
Definition tmean (v : vec) : tnum :=
  tdiv (tsum v) (Fin (INR (length v))).

(** Maximum of a row (the values of [torch.max(_, dim=1)]). *)
Definition rowmax (v : vec) : tnum :=
  match v with
  | [] => NInf
  | x :: v' => fold_left tmax v' x
  end.

Definition vmul : vec -> vec -> vec := zipWith tmul.
Definition mmul : matrix -> matrix -> matrix := zipWith vmul.
Definition msub : matrix -> matrix -> matrix := zipWith (zipWith tsub).
Definition mmap (f : tnum -> tnum) (m : matrix) : matrix := map (map f) m.

Definition dot (u v : vec) : tnum := tsum (vmul u v).

(** [torch.matmul(a, b.T)]. *)
Definition matmul_T (a b : matrix) : matrix :=
  map (fun u => map (fun v => dot u v) b) a.

(** [torch.eye(n, m)]. *)
Definition eye2 (n m : nat) : matrix :=
  map (fun i => map (fun j => if Nat.eqb i j then one else zero) (seq 0 m))
      (seq 0 n).
Definition eye (n : nat) : matrix := eye2 n n.

Definition ones_like (m : matrix) : matrix := mmap (fun _ => one) m.

(** [m - m.max(dim=1, keepdim=True)]. *)
Definition sub_rowmax (m : matrix) : matrix :=
  map (fun row => map (fun x => tsub x (rowmax row)) row) m.

(* ================================================================= *)
(** ** Results *)

Inductive error : Type :=
| ValueError (msg : string)
| RuntimeError (msg : string)
| ZeroDivisionError
| IndexError.

Inductive result (A : Type) : Type :=
| Ok (a : A)
| Err (e : error).

Arguments Ok {A} a.
Arguments Err {A} e.

Definition bind {A B : Type} (r : result A) (k : A -> result B) : result B :=
  match r with
  | Ok a => k a
  | Err e => Err e
  end.

Notation "x <- r ;; k" := (bind r (fun x => k))
  (at level 61, r at next level, right associativity).

(** What [torch.max(_, dim)] raises when the dimension has size zero: an
    [IndexError] ("Expected reduction dim to have non-zero size"). *)
Definition empty_max : error := IndexError.

(** Indexing [t[i]], which raises out of range. *)
Definition index {A : Type} (l : list A) (i : nat) : result A :=
  match nth_error l i with
  | Some a => Ok a
  | None => Err IndexError
  end.

(* ================================================================= *)
(** ** InfoNCE2 *)

Module InfoNCE2.

Local Open Scope string_scope.

Section Forward.
Variable temperature : tnum.
Variable scale_by_temperature : bool.

(** The input check of [forward] (lines 41-51): the positive mask the
    call works with, or the rejection. *)
Definition check_input (batch_size : nat)
    (labels : option (list Z)) (mask : option matrix) : result matrix :=
  match labels, mask with
  | Some _, Some _ => Err (ValueError "Cannot define both `labels` and `mask`")
  | None, None => Ok (eye batch_size)
  | Some labels, None =>
      if Nat.eqb (length labels) batch_size
      then Ok (map (fun a =>
                 map (fun b => if Z.eqb a b then one else zero) labels)
                 labels)
      else Err (ValueError "Num of labels does not match num of features")
  | None, Some mask => Ok mask
  end.

Definition logits_of (features : matrix) : matrix :=
  sub_rowmax (mmap (fun x => tdiv x temperature)
                   (matmul_T features features)).

Definition logits_mask_of (batch_size : nat) (mask : matrix) : matrix :=
  msub (ones_like mask) (eye batch_size).

Definition positives_mask_of (batch_size : nat) (mask : matrix) : matrix :=
  mmul mask (logits_mask_of batch_size mask).

Definition negatives_mask_of (mask : matrix) : matrix :=
  mmap (fun m => tsub one m) mask.

Definition denominator_of (exp_logits : matrix) (batch_size : nat)
    (mask : matrix) : vec :=
  zipWith tadd
    (map tsum (mmul exp_logits (negatives_mask_of mask)))
    (map tsum (mmul exp_logits (positives_mask_of batch_size mask))).

Definition log_probs_of (batch_size : nat) (features mask : matrix)
  : matrix :=
  let logits := logits_of features in
  let exp_logits := mmap texp logits in
  zipWith (fun row d => map (fun x => tsub x (tlog (tadd d (Fin eps)))) row)
          logits (denominator_of exp_logits batch_size mask).

(** Lines 71-77, from the log-probabilities and the positive mask. *)
Definition reduce (log_probs positives_mask : matrix) : tnum :=
  let num_positives_per_row := map tsum positives_mask in
  let keep := map (fun n => tgtb n zero) num_positives_per_row in
  let log_probs :=
    zipWith tdiv (select keep (map tsum (mmul log_probs positives_mask)))
                 (select keep num_positives_per_row) in
  let loss := map tneg log_probs in
  let loss := if scale_by_temperature
              then map (fun x => tmul x temperature) loss else loss in
  tmean loss.

Definition forward (features : matrix)
    (labels : option (list Z)) (mask : option matrix) : result tnum :=
  let batch_size := length features in
  mask <- check_input batch_size labels mask ;;
  if Nat.eqb batch_size 0 then Err empty_max
  else
    let log_probs := log_probs_of batch_size features mask in
    if existsb (existsb isnan) log_probs
    then Err (ValueError "Log_prob has nan!")
    else Ok (reduce log_probs (positives_mask_of batch_size mask)).
End Forward.

End InfoNCE2.


(* ================================================================= *)
(** ** Helpers shared by the other losses *)

Definition enumerate {A : Type} (l : list A) : list (nat * A) :=
  combine (seq 0 (length l)) l.

Definition mapi {A B : Type} (f : nat -> A -> B) (l : list A) : list B :=
  map (fun p => f (fst p) (snd p)) (enumerate l).

Fixpoint mapM {A B : Type} (f : A -> result B) (l : list A)
  : result (list B) :=
  match l with
  | [] => Ok []
  | a :: l' => b <- f a ;; bs <- mapM f l' ;; Ok (b :: bs)
  end.

Fixpoint foldM {A S : Type} (f : S -> A -> result S) (l : list A) (s : S)
  : result S :=
  match l with
  | [] => Ok s
  | a :: l' => s' <- f s a ;; foldM f l' s'
  end.

(** [torch.scatter(torch.ones_like(m), 1, torch.arange(n).view(-1, 1), 0)]:
    ones, with a zero at column [i] of each of the first [n] rows. *)
Definition scatter_diag0 (n : nat) (m : matrix) : matrix :=
  mapi (fun i row =>
          mapi (fun j _ => if Nat.ltb i n && Nat.eqb i j then zero else one)
               row) m.

(** [x - torch.log(s)] on each row, [s] the entry of the row in a column
    vector. *)
Definition sub_log (logits : matrix) (s : vec) : matrix :=
  zipWith (fun row d => map (fun x => tsub x (tlog d)) row) logits s.

(** [F.softmax] and [torch.log_softmax] of one row. *)
Definition softmax (v : vec) : vec :=
  let s := tsum (map texp v) in map (fun x => tdiv (texp x) s) v.

Definition log_softmax (v : vec) : vec :=
  let s := tsum (map texp v) in map (fun x => tsub x (tlog s)) v.

(** Division of two Python floats, which raises on a zero divisor. *)
Definition py_div (a b : tnum) : result tnum :=
  match b with
  | Fin r => if Req_dec_T r 0 then Err ZeroDivisionError else Ok (tdiv a b)
  | _ => Ok (tdiv a b)
  end.

(* ================================================================= *)
(** ** SupConLoss *)

Module SupConLoss.

Section Forward.
Variables temperature base_temperature : tnum.

(** Lines 95-127, the partial-label branch. *)
Definition supervised (features mask : matrix) (batch_size : nat)
    (weights : option vec) : result tnum :=
  if Nat.eqb (length features) 0 then Err empty_max else
  let anchor_dot_contrast :=
    mmap (fun x => tdiv x temperature)
         (matmul_T (firstn batch_size features) features) in
  let logits := sub_rowmax anchor_dot_contrast in
  let logits_mask := scatter_diag0 batch_size mask in
  let mask := mmul mask logits_mask in
  let exp_logits := mmul (mmap texp logits) logits_mask in
  let log_prob :=
    sub_log logits (map (fun row => tadd (tsum row) (Fin eps)) exp_logits) in
  let mean_log_prob_pos :=
    zipWith tdiv (map tsum (mmul mask log_prob)) (map tsum mask) in
  ratio <- py_div temperature base_temperature ;;
  let loss := map (fun x => tmul (tneg ratio) x) mean_log_prob_pos in
  match weights with
  | None => Ok (tmean loss)
  | Some weights => Ok (tmean (vmul loss weights))
  end.

(** Lines 133-147, the queue branch: [F.cross_entropy] against class 0. *)
Definition moco (features : matrix) (batch_size : nat) : result tnum :=
  let q := firstn batch_size features in
  let k := firstn batch_size (skipn batch_size features) in
  let queue := skipn (batch_size * 2) features in
  let l_pos := zipWith dot q k in
  let l_neg := matmul_T q queue in
  let logits := zipWith cons l_pos l_neg in
  let logits := mmap (fun x => tdiv x temperature) logits in
  Ok (tmean (map (fun row => tneg (hd NaN (log_softmax row))) logits)).

Definition forward (features : matrix) (mask : option matrix)
    (batch_size : nat) (weights : option vec) : result tnum :=
  match mask with
  | Some mask => supervised features mask batch_size weights
  | None => moco features batch_size
  end.
End Forward.

End SupConLoss.

(* ================================================================= *)
(** ** ConLoss *)

Module ConLoss.

Local Open Scope R_scope.

(** Index of the maximum of a row (the indices of [torch.max(_, 1)]): the
    first maximal entry, a [nan] counting as maximal. *)
Definition better (x best : tnum) : bool :=
  negb (isnan best) && (isnan x || tgtb x best).

Fixpoint argmax_from (v : vec) (i best_i : nat) (best : tnum) : nat :=
  match v with
  | [] => best_i
  | x :: v' =>
      if better x best then argmax_from v' (S i) i x
      else argmax_from v' (S i) best_i best
  end.

Definition argmax (v : vec) : result nat :=
  match v with
  | [] => Err empty_max
  | x :: v' => Ok (argmax_from v' 1 0 x)
  end.

(** [torch.cat(torch.unbind(features, dim=1), dim=0)] for [features] of
    shape [N, V, D], given as the list of the samples' lists of views. *)
Definition contrast_feature_of (contrast_count : nat)
    (features : list matrix) : matrix :=
  concat (map (fun v => map (fun sample => nth v sample []) features)
              (seq 0 contrast_count)).

(** [(Y == 1.0).nonzero()]: the positions of the ones, row by row. *)
Definition pos_set_of (Y : matrix) : list (nat * nat) :=
  flat_map (fun ir =>
              flat_map (fun jy => if teqb (snd jy) one
                                  then [(fst ir, fst jy)] else [])
                       (enumerate (snd ir)))
           (enumerate Y).

(** [torch.where(cond, a, b)]. *)
Definition where_ (cond : list bool) (a b : vec) : vec :=
  zipWith (fun (c : bool) (ab : tnum * tnum) => if c then fst ab else snd ab)
          cond (combine a b).

(** [m[i] = f(m[i])]. *)
Fixpoint update_row (i : nat) (f : vec -> vec) (m : matrix) : matrix :=
  match m, i with
  | [], _ => []
  | row :: m', O => f row :: m'
  | row :: m', S i' => row :: update_row i' f m'
  end.

(** [m.repeat(a, c)] on a matrix. *)
Definition tile (a c : nat) (m : matrix) : matrix :=
  concat (repeat (map (fun row => concat (repeat row c)) m) a).

Section Forward.
Variable base_temperature : tnum.

Definition temperature : tnum := Fin 0.1.

(** One turn of the loop of lines 188-195. *)
Definition loop_body (confidence : matrix) (predict_labels : list (list nat))
    (ones_flag zeros_flag : vec) (mask_logits : matrix) (p : nat * nat)
  : result matrix :=
  let sample_idx := fst p in
  let class_idx := snd p in
  let mask_logits_tmp :=
    where_ (map (fun t => Nat.eqb t class_idx)
                (nth sample_idx predict_labels []))
           ones_flag zeros_flag in
  if tgtb (tsum mask_logits_tmp) zero then
    let s := tsum mask_logits_tmp in
    let mask_logits_tmp := map (fun x => tdiv x s) mask_logits_tmp in
    row <- index confidence sample_idx ;;
    c <- index row class_idx ;;
    Ok (update_row sample_idx
          (fun r => zipWith tadd r (map (fun x => tmul x c) mask_logits_tmp))
          mask_logits)
  else Ok mask_logits.

(** Lines 175-176: the detached softmax of the first [batch_size] rows. *)
Definition output_sm_d_of (batch_size : nat) (outputs : matrix) : matrix :=
  map softmax (firstn batch_size outputs).

(** Lines 214-217: the refined target. *)
Definition new_target_of (Y output_sm_d : matrix) : matrix :=
  let revisedY_raw := mmul Y output_sm_d in
  map (fun row => map (fun x => tdiv x (tsum row)) row) revisedY_raw.

Definition forward (confidence outputs : matrix) (features : list matrix)
    (Y : matrix) (index : list nat) : result (tnum * matrix) :=
  let batch_size := length Y in
  let contrast_count := length (hd [] features) in
  let contrast_feature := contrast_feature_of contrast_count features in
  let anchor_count := contrast_count in
  let anchor_dot_contrast :=
    mmap (fun x => tdiv x temperature)
         (matmul_T contrast_feature contrast_feature) in
  if Nat.eqb (length contrast_feature) 0 then Err empty_max else
  let logits := sub_rowmax anchor_dot_contrast in
  let output_sm_d := output_sm_d_of batch_size outputs in
  target_predict <- mapM argmax (mmul output_sm_d Y) ;;
  let predict_labels := repeat target_predict batch_size in
  let mask_logits := repeat (repeat zero (length target_predict)) batch_size in
  let pos_set := pos_set_of Y in
  let ones_flag := repeat one batch_size in
  let zeros_flag := repeat zero batch_size in
  mask_logits <-
    foldM (loop_body confidence predict_labels ones_flag zeros_flag)
          pos_set mask_logits ;;
  let mask_logits := tile anchor_count contrast_count mask_logits in
  let logits_mask :=
    scatter_diag0 (batch_size * anchor_count) mask_logits in
  let mask_logits := mmul mask_logits logits_mask in
  let exp_logits := mmul logits_mask (mmap texp logits) in
  let log_prob := sub_log logits (map tsum exp_logits) in
  let mean_log_prob_pos := map tsum (mmul mask_logits log_prob) in
  ratio <- py_div temperature base_temperature ;;
  let loss_con_m := map (fun x => tmul (tneg ratio) x) mean_log_prob_pos in
  let loss_con := tmean loss_con_m in
  Ok (loss_con, new_target_of Y output_sm_d).

(** [F.softmax] is torch's own.  The forward pass again, for any
    row-wise softmax [softmax_fn] in its place: [forward] is
    [forward_with softmax], and what is proved of [forward_with] holds
    of the call whatever torch's softmax returns (also where it rounds
    a probability to zero). *)
Definition output_sm_d_with (softmax_fn : vec -> vec) (batch_size : nat)
    (outputs : matrix) : matrix :=
  map softmax_fn (firstn batch_size outputs).

Definition forward_with (softmax_fn : vec -> vec)
    (confidence outputs : matrix) (features : list matrix)
    (Y : matrix) (index : list nat) : result (tnum * matrix) :=
  let batch_size := length Y in
  let contrast_count := length (hd [] features) in
  let contrast_feature := contrast_feature_of contrast_count features in
  let anchor_count := contrast_count in
  let anchor_dot_contrast :=
    mmap (fun x => tdiv x temperature)
         (matmul_T contrast_feature contrast_feature) in
  if Nat.eqb (length contrast_feature) 0 then Err empty_max else
  let logits := sub_rowmax anchor_dot_contrast in
  let output_sm_d := output_sm_d_with softmax_fn batch_size outputs in
  target_predict <- mapM argmax (mmul output_sm_d Y) ;;
  let predict_labels := repeat target_predict batch_size in
  let mask_logits := repeat (repeat zero (length target_predict)) batch_size in
  let pos_set := pos_set_of Y in
  let ones_flag := repeat one batch_size in
  let zeros_flag := repeat zero batch_size in
  mask_logits <-
    foldM (loop_body confidence predict_labels ones_flag zeros_flag)
          pos_set mask_logits ;;
  let mask_logits := tile anchor_count contrast_count mask_logits in
  let logits_mask :=
    scatter_diag0 (batch_size * anchor_count) mask_logits in
  let mask_logits := mmul mask_logits logits_mask in
  let exp_logits := mmul logits_mask (mmap texp logits) in
  let log_prob := sub_log logits (map tsum exp_logits) in
  let mean_log_prob_pos := map tsum (mmul mask_logits log_prob) in
  ratio <- py_div temperature base_temperature ;;
  let loss_con_m := map (fun x => tmul (tneg ratio) x) mean_log_prob_pos in
  let loss_con := tmean loss_con_m in
  Ok (loss_con, new_target_of Y output_sm_d).
End Forward.

End ConLoss.

(* ================================================================= *)
(** ** PaPiLoss *)

Module PaPiLoss.

Local Open Scope R_scope.

Section Forward.
(** The similarity criterion is the caller's: any function of a matrix of
    log-probabilities and a matrix of targets to a scalar. *)
Variable sim_criterion : matrix -> matrix -> tnum.

(** [torch.log_softmax(torch.div(logits, 0.3), dim = 1)]. *)
Definition tempered_log_softmax (logits : matrix) : matrix :=
  map log_softmax (mmap (fun x => tdiv x (Fin 0.3)) logits).

(** [t[idx, :]] and [t[idx]] for a tensor of indices. *)
Definition gather {A : Type} (t : list A) (idx : list nat) : result (list A) :=
  mapM (index t) idx.

Definition forward (cls_out_1 logits_prot_1_mix logits_prot_2_mix : matrix)
    (confidence : matrix) (idx_rp : list nat) (Lambda : tnum)
    (index : list nat) : result (tnum * tnum) :=
  let y_pred_1_probas := map softmax cls_out_1 in
  let prot_pred_1_mix_probas_log := tempered_log_softmax logits_prot_1_mix in
  let prot_pred_2_mix_probas_log := tempered_log_softmax logits_prot_2_mix in
  soft_positive_label_target1 <- gather confidence index ;;
  index_rp <- gather index idx_rp ;;
  soft_positive_label_target1_rp <- gather confidence index_rp ;;
  let cls_loss_all_1 :=
    mmul soft_positive_label_target1 (mmap tlog y_pred_1_probas) in
  let cls_loss_1 := tneg (tmean (map tsum cls_loss_all_1)) in
  let sim_loss_2_1 :=
    tadd (tmul Lambda
            (sim_criterion prot_pred_1_mix_probas_log
                           soft_positive_label_target1))
         (tmul (tsub one Lambda)
            (sim_criterion prot_pred_1_mix_probas_log
                           soft_positive_label_target1_rp)) in
  let sim_loss_2_2 :=
    tadd (tmul Lambda
            (sim_criterion prot_pred_2_mix_probas_log
                           soft_positive_label_target1))
         (tmul (tsub one Lambda)
            (sim_criterion prot_pred_2_mix_probas_log
                           soft_positive_label_target1_rp)) in
  let sim_loss_2 := tadd sim_loss_2_1 sim_loss_2_2 in
  Ok (cls_loss_1, sim_loss_2).

(** The similarity loss in the words of the specification: for one
    prototype branch, the [Lambda]-weighted combination of the criterion
    against the two soft targets; the loss is the sum over the branches. *)
Definition branch_sim_loss (Lambda : tnum) (log_p c c_rp : matrix) : tnum :=
  tadd (tmul Lambda (sim_criterion log_p c))
       (tmul (tsub one Lambda) (sim_criterion log_p c_rp)).

Definition sim_loss_spec (Lambda : tnum) (branches : list matrix)
    (c c_rp : matrix) : tnum :=
  match map (fun log_p => branch_sim_loss Lambda log_p c c_rp) branches with
  | [] => zero
  | t :: ts => fold_left tadd ts t
  end.
End Forward.

End PaPiLoss.

(* ================================================================= *)
(** ** InfoNCE *)

Module InfoNCE.

Section Forward.
(** [F.cosine_similarity] of two rows is torch's; the loss is modelled
    for any pairwise similarity. *)
Variable cosine_similarity : vec -> vec -> tnum.
Variable temperature : tnum.

(** [torch.diag(m, k)] and [torch.diag(m, -k)] of a matrix. *)
Definition diag_above (m : matrix) (k : nat) : vec :=
  flat_map (fun i => match nth_error (nth i m []) (i + k) with
                     | Some x => [x]
                     | None => []
                     end)
           (seq 0 (length m)).

Definition diag_below (m : matrix) (k : nat) : vec :=
  flat_map (fun i => match nth_error (nth (i + k) m []) i with
                     | Some x => [x]
                     | None => []
                     end)
           (seq 0 (length m - k)).

(** [(~torch.eye(n, n, dtype=torch.bool)).float()]. *)
Definition not_eye (n : nat) : matrix :=
  map (fun i => map (fun j => if negb (Nat.eqb i j) then one else zero)
                    (seq 0 n))
      (seq 0 n).

Definition all_losses_of (z_i z_j : matrix) : vec :=
  let batch_size := length z_i in
  let z := z_i ++ z_j in
  let similarity := map (fun a => map (fun b => cosine_similarity a b) z) z in
  let sim_ij := diag_above similarity batch_size in
  let sim_ji := diag_below similarity batch_size in
  let positives := sim_ij ++ sim_ji in
  let mask := not_eye (batch_size * 2) in
  let numerator := map (fun x => texp (tdiv x temperature)) positives in
  let denominator :=
    mmul mask (mmap (fun x => texp (tdiv x temperature)) similarity) in
  map (fun x => tneg (tlog x))
      (zipWith tdiv numerator (map tsum denominator)).

Definition forward (z_i z_j : matrix) : tnum :=
  let batch_size := length z_i in
  tdiv (tsum (all_losses_of z_i z_j)) (Fin (INR (2 * batch_size))).
End Forward.

End InfoNCE.

(* ================================================================= *)
(** ** Predicates on entries and tensors *)

Definition finite (x : tnum) : Prop := exists r : R, x = Fin r.

Definition nonneg (x : tnum) : Prop := exists r : R, x = Fin r /\ (0 <= r)%R.

Definition positive (x : tnum) : Prop := exists r : R, x = Fin r /\ (0 < r)%R.

(** An entry of a 0/1 indicator matrix. *)
Definition binary (x : tnum) : Prop := x = zero \/ x = one.

(** Every entry of a matrix satisfies [P]. *)
Definition mall (P : tnum -> Prop) (m : matrix) : Prop := Forall (Forall P) m.

(** For [InfoNCE2], a row of the batch as the pair of its log-probability
    row and its row of the positive mask: whether it has positives, and
    the loss it contributes when it has. *)
Definition has_positives (row : vec * vec) : bool :=
  tgtb (tsum (snd row)) zero.

Definition row_loss (temperature : tnum) (scale_by_temperature : bool)
    (row : vec * vec) : tnum :=
  let l := tneg (tdiv (tsum (vmul (fst row) (snd row))) (tsum (snd row))) in
  if scale_by_temperature then tmul l temperature else l.

(** The shapes [SupConLoss] expects in its partial-label branch:
    [batch_size] anchors among the rows of [features], and a mask with a
    row per anchor and a column per row of [features]. *)
Definition supcon_shapes (features mask : matrix) (batch_size : nat) : Prop :=
  batch_size <= length features /\
  length mask = batch_size /\
  Forall (fun row => length row = length features) mask.

(** The shapes [ConLoss] expects of the classifier outputs: a row per row
    of [Y] at least, and as many classes as [Y] has. *)
Definition conloss_shapes (outputs Y : matrix) : Prop :=
  length Y <= length outputs /\
  forall i, i < length Y -> length (nth i outputs []) = length (nth i Y []).

(** Two matrices of the same shape: as many rows, and row by row as
    many entries. *)
Definition same_shape (a b : matrix) : Prop :=
  length a = length b /\
  forall i, i < length b -> length (nth i a []) = length (nth i b []).

(** Row [p] of the softmax gives a positive probability to some
    candidate class of row [y] of the candidates. *)
Definition candidate_mass (y p : vec) : Prop :=
  exists j, nth j y NaN = one /\ positive (nth j p NaN).

(** A confidence tensor with an entry wherever [Y] has one. *)
Definition covers (confidence Y : matrix) : Prop :=
  forall i, i < length Y ->
    i < length confidence /\
    length (nth i Y []) <= length (nth i confidence []).

(** A small [ConLoss] batch: two samples with two views of dimension one,
    two classes, the first sample with one candidate and the second with
    two. *)
Module Example.
Definition Y : matrix := [[one; zero]; [one; one]].
Definition outputs : matrix := [[zero; one]; [one; zero]].
Definition features : list matrix := [[[one]; [one]]; [[one]; [zero]]].
Definition confidence : matrix := [[one; zero]; [Fin 0.5; Fin 0.5]].
Definition uniform : matrix := [[Fin 0.5; Fin 0.5]; [Fin 0.5; Fin 0.5]].
Definition base_temperature : tnum := Fin 0.07.
End Example.

(** [z[p]] for a tensor [p] of positions. *)
Definition permute (p : list nat) (z : matrix) : matrix :=
  map (fun k => nth k z []) p.

(** For [InfoNCE] on two batches of [n] samples: the position of the
    other view of the sample at position [k] of the concatenation, and
    the loss of row [k] written out on the entries. *)
Definition partner (n k : nat) : nat :=
  if Nat.ltb k n then k + n else k - n.

(** The permutation of the positions of the concatenation [z_i ++ z_j]
    that permuting both batches by [p] amounts to. *)
Definition both_views (p : list nat) (n : nat) : list nat :=
  p ++ map (fun k => k + n) p.

Section InfoNCERow.
Variable cosine_similarity : vec -> vec -> tnum.
Variable temperature : tnum.

(** The similarity matrix of [n] rows, entry by entry. *)
Definition sim_entries (z : matrix) (n : nat) : matrix :=
  map (fun i => map (fun j => cosine_similarity (nth i z []) (nth j z []))
                    (seq 0 n))
      (seq 0 n).

Definition exp_sim (u v : vec) : tnum :=
  texp (tdiv (cosine_similarity u v) temperature).

Definition not_self (k b : nat) : tnum :=
  if negb (Nat.eqb k b) then one else zero.

Definition row_denominator (z : matrix) (k : nat) : tnum :=
  tsum (map (fun b => tmul (not_self k b)
                           (exp_sim (nth k z []) (nth b z [])))
            (seq 0 (length z))).

Definition infonce_row_loss (z : matrix) (n k : nat) : tnum :=
  tneg (tlog (tdiv (exp_sim (nth k z []) (nth (partner n k) z []))
                   (row_denominator z k))).
End InfoNCERow.

(** A mask with the self-pair entries of its first [n] rows set to zero. *)
Definition clear_diag (n : nat) (m : matrix) : matrix :=
  mapi (fun i row =>
          mapi (fun j x => if Nat.ltb i n && Nat.eqb i j then zero else x)
               row) m.

(** [mapi] with the positions counted from [s]. *)
Definition mapi_at {A B : Type} (s : nat) (f : nat -> A -> B) (l : list A)
  : list B :=
  map (fun p => f (fst p) (snd p)) (combine (seq s (length l)) l).

(** The permutation of the positions of [z_i ++ z_j] that exchanges the
    two batches of [n] samples. *)
Definition swap_views (n : nat) : list nat := seq n n ++ seq 0 n.

(* ================================================================= *)
(** * Properties *)

(** ** Arithmetic of the entries *)

Section NumFacts.
Local Open Scope R_scope.

Lemma eps_pos : 0 < eps.
Proof. unfold eps. lra. Qed.

Lemma inf_of_sign_0 : inf_of_sign 0 = NaN.
Proof.
  unfold inf_of_sign.
  destruct (Rlt_dec 0 0) as [H | _]; [lra | reflexivity].
Qed.

Lemma inf_of_sign_pos (s : R) : 0 < s -> inf_of_sign s = PInf.
Proof.
  intros H. unfold inf_of_sign.
  destruct (Rlt_dec 0 s); [reflexivity | contradiction].
Qed.

Lemma inf_of_sign_neg (s : R) : s < 0 -> inf_of_sign s = NInf.
Proof.
  intros H. unfold inf_of_sign.
  destruct (Rlt_dec 0 s); [lra |].
  destruct (Rlt_dec s 0); [reflexivity | contradiction].
Qed.

Lemma tadd_comm (a b : tnum) : tadd a b = tadd b a.
Proof. destruct a, b; simpl; try reflexivity. f_equal. lra. Qed.

Lemma tadd_assoc (a b c : tnum) : tadd a (tadd b c) = tadd (tadd a b) c.
Proof. destruct a, b, c; simpl; try reflexivity. f_equal. lra. Qed.

Lemma tadd_zero_l (a : tnum) : tadd zero a = a.
Proof. destruct a; simpl; try reflexivity. f_equal. lra. Qed.

Lemma tadd_NaN_r (a : tnum) : tadd a NaN = NaN.
Proof. destruct a; reflexivity. Qed.

Lemma tmul_one_r (a : tnum) : tmul a one = a.
Proof.
  destruct a; simpl; try reflexivity.
  - f_equal. lra.
  - apply inf_of_sign_pos. lra.
  - apply inf_of_sign_neg. lra.
Qed.

Lemma tmul_NaN_r (a : tnum) : tmul a NaN = NaN.
Proof. destruct a; reflexivity. Qed.

Lemma tdiv_NaN_l (a : tnum) : tdiv NaN a = NaN.
Proof. reflexivity. Qed.

Lemma tdiv_zero_zero : tdiv zero zero = NaN.
Proof.
  unfold zero. simpl.
  destruct (Req_dec_T 0 0) as [_ | H]; [apply inf_of_sign_0 | lra].
Qed.

Lemma tgtb_zero_zero : tgtb zero zero = false.
Proof.
  unfold zero. simpl. destruct (Rlt_dec 0 0); [lra | reflexivity].
Qed.

Lemma tsum_cons (x : tnum) (v : vec) : tsum (x :: v) = tadd x (tsum v).
Proof. reflexivity. Qed.

Lemma tsum_app (u v : vec) : tsum (u ++ v) = tadd (tsum u) (tsum v).
Proof.
  induction u as [| x u IH].
  - change (tsum v = tadd zero (tsum v)). now rewrite tadd_zero_l.
  - change (tadd x (tsum (u ++ v)) = tadd (tadd x (tsum u)) (tsum v)).
    now rewrite IH, tadd_assoc.
Qed.

(** A sum does not depend on the order of its terms. *)
Lemma tsum_Permutation (u v : vec) : Permutation u v -> tsum u = tsum v.
Proof.
  induction 1 as [| x u v _ IH | x y u | u v w _ IH1 _ IH2].
  - reflexivity.
  - rewrite !tsum_cons. now rewrite IH.
  - rewrite !tsum_cons, !tadd_assoc. f_equal. apply tadd_comm.
  - now rewrite IH1.
Qed.

Lemma tsum_all_zero (v : vec) : Forall (fun x => x = zero) v -> tsum v = zero.
Proof.
  induction 1 as [| x v Hx _ IH]; [reflexivity |].
  rewrite tsum_cons, IH, Hx. apply tadd_zero_l.
Qed.

Lemma tsum_In_NaN (v : vec) : In NaN v -> tsum v = NaN.
Proof.
  induction v as [| x v IH]; [intros [] |].
  intros [-> | H]; [reflexivity |].
  rewrite tsum_cons, IH by assumption. apply tadd_NaN_r.
Qed.

Lemma tmean_nil : tmean [] = NaN.
Proof. unfold tmean. simpl. apply tdiv_zero_zero. Qed.

Lemma tmean_In_NaN (v : vec) : In NaN v -> tmean v = NaN.
Proof. intros H. unfold tmean. now rewrite tsum_In_NaN. Qed.
End NumFacts.

(** ** Zips and maps *)

Section ListFacts.
Variables A B C D : Type.

Lemma zipWith_length (f : A -> B -> C) (l : list A) (m : list B) :
  length (zipWith f l m) = Nat.min (length l) (length m).
Proof.
  revert m. induction l as [| a l IH]; intros [| b m]; simpl; auto.
Qed.

Lemma zipWith_map_same (f : A -> B -> C) (g : D -> A) (h : D -> B)
    (l : list D) :
  zipWith f (map g l) (map h l) = map (fun x => f (g x) (h x)) l.
Proof. induction l as [| x l IH]; simpl; [reflexivity | now rewrite IH]. Qed.

Lemma zipWith_nth (f : A -> B -> C) (l : list A) (m : list B)
    (i : nat) (a : A) (b : B) (c : C) :
  i < length l -> i < length m ->
  nth i (zipWith f l m) c = f (nth i l a) (nth i m b).
Proof.
  revert m i. induction l as [| x l IH]; intros [| y m] [| i]; simpl;
    intros Hl Hm; try lia; [reflexivity | apply IH; lia].
Qed.

Lemma zipWith_Forall (P : A -> Prop) (Q : B -> Prop) (R : C -> Prop)
    (f : A -> B -> C) (l : list A) (m : list B) :
  (forall a b, P a -> Q b -> R (f a b)) ->
  Forall P l -> Forall Q m -> Forall R (zipWith f l m).
Proof.
  intros Hf Hl. revert m.
  induction Hl as [| a l Ha _ IH]; intros m Hm; simpl; [constructor |].
  destruct Hm as [| b m Hb Hm]; constructor; auto.
Qed.

Lemma select_all_false (keep : list bool) (l : list A) :
  Forall (fun k => k = false) keep -> select keep l = [].
Proof.
  intros H. revert l.
  induction H as [| k keep Hk _ IH]; intros [| a l]; simpl; auto.
  now rewrite Hk.
Qed.
End ListFacts.

(** ** Finite entries stay finite *)

Section FiniteFacts.
Local Open Scope R_scope.

Lemma nonneg_finite (x : tnum) : nonneg x -> finite x.
Proof. intros (r & -> & _). now exists r. Qed.

Lemma binary_nonneg (x : tnum) : binary x -> nonneg x.
Proof. intros [-> | ->]; [exists 0 | exists 1]; split; auto; lra. Qed.

Lemma finite_not_nan (x : tnum) : finite x -> isnan x = false.
Proof. intros (r & ->). reflexivity. Qed.

Lemma finite_tadd (a b : tnum) : finite a -> finite b -> finite (tadd a b).
Proof. intros (x & ->) (y & ->). now exists (x + y). Qed.

Lemma finite_tneg (a : tnum) : finite a -> finite (tneg a).
Proof. intros (x & ->). now exists (- x). Qed.

Lemma finite_tsub (a b : tnum) : finite a -> finite b -> finite (tsub a b).
Proof. intros Ha Hb. apply finite_tadd; [| apply finite_tneg]; assumption. Qed.

Lemma finite_tmul (a b : tnum) : finite a -> finite b -> finite (tmul a b).
Proof. intros (x & ->) (y & ->). now exists (x * y). Qed.

Lemma finite_tdiv (a : tnum) (t : R) :
  t <> 0 -> finite a -> finite (tdiv a (Fin t)).
Proof.
  intros Ht (x & ->). exists (x / t). simpl.
  destruct (Req_dec_T t 0); [contradiction | reflexivity].
Qed.

Lemma finite_tmax (a b : tnum) : finite a -> finite b -> finite (tmax a b).
Proof. intros (x & ->) (y & ->). now exists (Rmax x y). Qed.

Lemma nonneg_texp (a : tnum) : finite a -> nonneg (texp a).
Proof.
  intros (x & ->). exists (exp x). split; [reflexivity |].
  left. apply exp_pos.
Qed.

Lemma nonneg_tadd (a b : tnum) : nonneg a -> nonneg b -> nonneg (tadd a b).
Proof.
  intros (x & -> & Hx) (y & -> & Hy). exists (x + y). split; [reflexivity | lra].
Qed.

Lemma nonneg_tmul (a b : tnum) : nonneg a -> nonneg b -> nonneg (tmul a b).
Proof.
  intros (x & -> & Hx) (y & -> & Hy). exists (x * y).
  split; [reflexivity | now apply Rmult_le_pos].
Qed.

Lemma nonneg_one_minus (m : tnum) : binary m -> nonneg (tsub one m).
Proof.
  intros [-> | ->]; [exists (1 + - 0) | exists (1 + - 1)];
    split; try reflexivity; lra.
Qed.

Lemma finite_log_eps (d : tnum) : nonneg d -> finite (tlog (tadd d (Fin eps))).
Proof.
  intros (r & -> & Hr). exists (ln (r + eps)). simpl.
  pose proof eps_pos.
  destruct (Rlt_dec 0 (r + eps)); [reflexivity | lra].
Qed.

Lemma finite_tsum (v : vec) : Forall finite v -> finite (tsum v).
Proof.
  induction 1 as [| x v Hx _ IH]; [now exists 0 |].
  rewrite tsum_cons. now apply finite_tadd.
Qed.

Lemma nonneg_tsum (v : vec) : Forall nonneg v -> nonneg (tsum v).
Proof.
  induction 1 as [| x v Hx _ IH]; [exists 0; split; [reflexivity | lra] |].
  rewrite tsum_cons. now apply nonneg_tadd.
Qed.

Lemma finite_fold_tmax (v : vec) (x : tnum) :
  finite x -> Forall finite v -> finite (fold_left tmax v x).
Proof.
  intros Hx Hv. revert x Hx.
  induction Hv as [| y v Hy _ IH]; intros x Hx; simpl; [assumption |].
  apply IH. now apply finite_tmax.
Qed.

Lemma finite_sub_rowmax (m : matrix) : mall finite m -> mall finite (sub_rowmax m).
Proof.
  unfold mall, sub_rowmax. intros Hm.
  apply Forall_map. eapply Forall_impl; [| exact Hm].
  intros row Hrow. apply Forall_map.
  destruct Hrow as [| x row Hx Hrow]; [constructor |].
  assert (Hmax : finite (rowmax (x :: row))) by now apply finite_fold_tmax.
  constructor; [now apply finite_tsub |].
  eapply Forall_impl; [| exact Hrow].
  intros y Hy. now apply finite_tsub.
Qed.

Lemma finite_dot (u v : vec) :
  Forall finite u -> Forall finite v -> finite (dot u v).
Proof.
  intros Hu Hv. apply finite_tsum.
  apply zipWith_Forall with (P := finite) (Q := finite);
    auto using finite_tmul.
Qed.

Lemma finite_matmul_T (a b : matrix) :
  mall finite a -> mall finite b -> mall finite (matmul_T a b).
Proof.
  unfold mall, matmul_T. intros Ha Hb.
  apply Forall_map. eapply Forall_impl; [| exact Ha].
  intros u Hu. apply Forall_map. eapply Forall_impl; [| exact Hb].
  intros v Hv. now apply finite_dot.
Qed.

Lemma mall_mmap (P Q : tnum -> Prop) (f : tnum -> tnum) (m : matrix) :
  (forall x, P x -> Q (f x)) -> mall P m -> mall Q (mmap f m).
Proof.
  unfold mall, mmap. intros Hf Hm.
  apply Forall_map. eapply Forall_impl; [| exact Hm].
  intros row Hrow. apply Forall_map. eapply Forall_impl; [| exact Hrow].
  exact Hf.
Qed.

Lemma mall_zip (P Q R : tnum -> Prop) (f : tnum -> tnum -> tnum)
    (a b : matrix) :
  (forall x y, P x -> Q y -> R (f x y)) ->
  mall P a -> mall Q b -> mall R (zipWith (zipWith f) a b).
Proof.
  unfold mall. intros Hf Ha Hb.
  apply zipWith_Forall with (P := Forall P) (Q := Forall Q); auto.
  intros u v Hu Hv. now apply zipWith_Forall with (P := P) (Q := Q).
Qed.

Lemma mall_eye2 (n m : nat) : mall binary (eye2 n m).
Proof.
  unfold mall, eye2. apply Forall_map, Forall_forall. intros i _.
  apply Forall_map, Forall_forall. intros j _.
  destruct (Nat.eqb i j); [now right | now left].
Qed.
End FiniteFacts.

(** ** InfoNCE2 *)

Section InfoNCE2Facts.
Import InfoNCE2.
Local Open Scope R_scope.

Lemma existsb_isnan_finite (m : matrix) :
  mall finite m -> existsb (existsb isnan) m = false.
Proof.
  induction 1 as [| row m Hrow _ IH]; simpl; [reflexivity |].
  rewrite IH, orb_false_r.
  induction Hrow as [| x row Hx _ IHrow]; simpl; [reflexivity |].
  now rewrite IHrow, finite_not_nan.
Qed.

Lemma mall_logits_mask (n : nat) (mask : matrix) :
  mall nonneg (logits_mask_of n mask).
Proof.
  unfold logits_mask_of, msub.
  apply mall_zip with (P := fun x => x = one) (Q := binary).
  - intros x y -> Hy. now apply nonneg_one_minus.
  - apply mall_mmap with (P := fun _ => True); [reflexivity |].
    unfold mall. apply Forall_forall. intros row _.
    apply Forall_forall. trivial.
  - apply mall_eye2.
Qed.

Lemma mall_positives_mask (n : nat) (mask : matrix) :
  mall binary mask -> mall nonneg (positives_mask_of n mask).
Proof.
  intros Hm. unfold positives_mask_of, mmul, vmul.
  apply mall_zip with (P := binary) (Q := nonneg);
    auto using mall_logits_mask.
  intros x y Hx Hy. apply nonneg_tmul; [now apply binary_nonneg | assumption].
Qed.

Lemma nonneg_rowsums (e w : matrix) :
  mall nonneg e -> mall nonneg w -> Forall nonneg (map tsum (mmul e w)).
Proof.
  intros He Hw. apply Forall_map.
  assert (H : mall nonneg (mmul e w)).
  { unfold mmul, vmul.
    apply mall_zip with (P := nonneg) (Q := nonneg);
      auto using nonneg_tmul. }
  eapply Forall_impl; [| exact H]. apply nonneg_tsum.
Qed.

(** On finite features, a finite non-zero temperature and a 0/1 mask no
    log-probability is [nan]. *)
Lemma log_probs_finite (t : R) (n : nat) (features mask : matrix) :
  t <> 0 -> mall finite features -> mall binary mask ->
  mall finite (log_probs_of (Fin t) n features mask).
Proof.
  intros Ht Hf Hm. unfold log_probs_of.
  assert (Hl : mall finite (logits_of (Fin t) features)).
  { unfold logits_of. apply finite_sub_rowmax.
    apply mall_mmap with (P := finite);
      [intros x Hx; now apply finite_tdiv | now apply finite_matmul_T]. }
  assert (He : mall nonneg (mmap texp (logits_of (Fin t) features))).
  { apply mall_mmap with (P := finite); [apply nonneg_texp | exact Hl]. }
  apply zipWith_Forall with (P := Forall finite) (Q := nonneg).
  - intros row d Hrow Hd. apply Forall_map.
    eapply Forall_impl; [| exact Hrow].
    intros x Hx. apply finite_tsub; [assumption | now apply finite_log_eps].
  - exact Hl.
  - unfold denominator_of.
    apply zipWith_Forall with (P := nonneg) (Q := nonneg);
      [apply nonneg_tadd | |].
    + apply nonneg_rowsums; [exact He |].
      apply mall_mmap with (P := binary);
        [apply nonneg_one_minus | exact Hm].
    + apply nonneg_rowsums; [exact He | now apply mall_positives_mask].
Qed.

(** Boolean-mask selection of two aligned vectors is a filter on the
    pairs. *)
Lemma select_pairs (A B C : Type) (g : B -> bool) (f : A -> B -> C)
    (l : list A) (m : list B) :
  zipWith f (select (map g m) l) (select (map g m) m) =
  map (fun p => f (fst p) (snd p)) (filter (fun p => g (snd p)) (combine l m)).
Proof.
  revert m. induction l as [| a l IH]; intros [| b m]; simpl; try reflexivity.
  destruct (g b); simpl; now rewrite IH.
Qed.

Lemma rowsums_combine (lp pm : matrix) :
  combine (map tsum (mmul lp pm)) (map tsum pm) =
  map (fun row => (tsum (vmul (fst row) (snd row)), tsum (snd row)))
      (combine lp pm).
Proof.
  revert pm.
  induction lp as [| l lp IH]; intros [| p pm]; simpl; try reflexivity.
  now rewrite IH.
Qed.

(** Lines 71-77 as a mean over the rows that have positives. *)
Lemma reduce_rows (T : tnum) (s : bool) (lp pm : matrix) :
  reduce T s lp pm =
  tmean (map (row_loss T s) (filter has_positives (combine lp pm))).
Proof.
  unfold reduce.
  rewrite (select_pairs (fun n => tgtb n zero) tdiv).
  rewrite rowsums_combine, filter_map_swap, !map_map.
  destruct s; reflexivity.
Qed.

Lemma no_positives_filtered (rows : list (vec * vec)) :
  Forall (fun row => tsum (snd row) = zero) rows ->
  filter has_positives rows = [].
Proof.
  induction 1 as [| row rows Hrow _ IH]; simpl; [reflexivity |].
  unfold has_positives at 1. now rewrite Hrow, tgtb_zero_zero.
Qed.

(** With the identity as positive mask, the self-pair exclusion leaves no
    positive in any row. *)
Lemma positives_mask_self (x : tnum) :
  binary x -> tmul x (tsub one x) = zero.
Proof. intros [-> | ->]; unfold zero, one; simpl; f_equal; lra. Qed.

Lemma positives_mask_eye_row (f : nat -> tnum) (l : list nat) :
  (forall j, binary (f j)) ->
  tsum (vmul (map f l)
             (zipWith tsub (map (fun _ => one) (map f l)) (map f l))) = zero.
Proof.
  intros Hf. apply tsum_all_zero. unfold vmul.
  rewrite map_map, zipWith_map_same, zipWith_map_same.
  apply Forall_map, Forall_forall. intros j _.
  now apply positives_mask_self.
Qed.

Lemma positives_mask_eye (n : nat) :
  Forall (fun row => tsum row = zero) (positives_mask_of n (eye n)).
Proof.
  unfold positives_mask_of, logits_mask_of, msub, ones_like, mmap, mmul,
    eye, eye2.
  rewrite map_map, zipWith_map_same, zipWith_map_same.
  apply Forall_map, Forall_forall. intros i _.
  apply positives_mask_eye_row.
  intros j. destruct (Nat.eqb i j); [now right | now left].
Qed.

Lemma default_mask_reduce (T : tnum) (s : bool) (n : nat) (lp : matrix) :
  reduce T s lp (positives_mask_of n (eye n)) = NaN.
Proof.
  rewrite reduce_rows, no_positives_filtered; [apply tmean_nil |].
  generalize (positives_mask_eye n).
  generalize (positives_mask_of n (eye n)). intros pm Hpm. revert lp.
  induction Hpm as [| p pm Hp _ IH]; intros [| l lp]; simpl; constructor;
    auto.
Qed.

Lemma forward_finite (t : R) (s : bool) (features : matrix)
    (labels : option (list Z)) (mask : option matrix) (m : matrix) :
  t <> 0 -> features <> [] -> mall finite features ->
  check_input (length features) labels mask = Ok m -> mall binary m ->
  forward (Fin t) s features labels mask =
  Ok (reduce (Fin t) s
        (log_probs_of (Fin t) (length features) features m)
        (positives_mask_of (length features) m)).
Proof.
  intros Ht Hne Hf Hc Hm. unfold forward. rewrite Hc. simpl.
  destruct features as [| u features]; [contradiction |].
  cbn [length Nat.eqb].
  rewrite existsb_isnan_finite; [reflexivity |].
  now apply log_probs_finite.
Qed.

(** C4.  [InfoNCE2] rejects a call that supplies both labels and a mask,
    and a call whose number of labels is not the batch size, with a
    [ValueError]; the rejection is that of the input check, which sees the
    batch size only: it comes before the logits and before the error a
    [nan] among them would raise. *)
Theorem InfoNCE2_rejects_before_logits (T : tnum) (s : bool)
    (features : matrix) (labels : option (list Z)) (mask : option matrix) :
  (exists l m, labels = Some l /\ mask = Some m) \/
  (exists l, labels = Some l /\ length l <> length features) ->
  exists msg,
    check_input (length features) labels mask = Err (ValueError msg) /\
    forward T s features labels mask = Err (ValueError msg).
Proof.
  intros [(l & m & -> & ->) | (l & -> & Hlen)].
  - eexists. split; reflexivity.
  - destruct mask as [m |].
    + eexists. split; reflexivity.
    + apply Nat.eqb_neq in Hlen.
      eexists. unfold forward, check_input. rewrite Hlen.
      split; reflexivity.
Qed.

Lemma InfoNCE2_rejects_before_logits_witness :
  exists msg,
    check_input 1 (Some [1%Z; 2%Z]) None = Err (ValueError msg) /\
    forward one false [[NaN]] (Some [1%Z; 2%Z]) None = Err (ValueError msg).
Proof.
  apply (@InfoNCE2_rejects_before_logits one false [[NaN]]
           (Some [1%Z; 2%Z]) None).
  right. exists [1%Z; 2%Z]. split; [reflexivity | simpl; lia].
Defined.

(** Two orthogonal unit vectors. *)
Lemma orthogonal_pair_returns :
  forward one false [[one; zero]; [zero; one]] None None =
  Ok (reduce one false
        (log_probs_of one 2 [[one; zero]; [zero; one]] (eye 2))
        (positives_mask_of 2 (eye 2))).
Proof.
  apply (@forward_finite 1 false [[one; zero]; [zero; one]] None None (eye 2)).
  - lra.
  - discriminate.
  - repeat constructor; eexists; reflexivity.
  - reflexivity.
  - apply mall_eye2.
Qed.

(** C1 (as the code has it).  Called with neither labels nor mask,
    [InfoNCE2] takes the identity as positive mask; the exclusion of the
    self-pairs then leaves every row without a positive, every row is
    dropped from the mean, and a call that returns returns the mean of an
    empty tensor, [nan], whatever the features and the temperature. *)
Theorem InfoNCE2_default_loss_is_nan (T : tnum) (s : bool)
    (features : matrix) (loss : tnum) :
  forward T s features None None = Ok loss -> loss = NaN.
Proof.
  unfold forward. simpl.
  destruct (Nat.eqb (length features) 0); [discriminate |].
  destruct (existsb _ _); [discriminate |].
  intros H. injection H as <-. apply default_mask_reduce.
Qed.

Lemma InfoNCE2_default_loss_is_nan_witness :
  forward one false [[one; zero]; [zero; one]] None None = Ok NaN.
Proof.
  rewrite orthogonal_pair_returns. f_equal.
  exact (@InfoNCE2_default_loss_is_nan one false [[one; zero]; [zero; one]]
           _ orthogonal_pair_returns).
Defined.

(** C1 (as stated) fails: on two orthogonal unit vectors with temperature
    1.0 the loss is not [log 2]. *)
Lemma InfoNCE2_default_orthogonal_not_log2 :
  forward one false [[one; zero]; [zero; one]] None None <> Ok (Fin (ln 2)).
Proof.
  rewrite orthogonal_pair_returns, default_mask_reduce. discriminate.
Qed.


Lemma log_probs_length (T : tnum) (features mask : matrix) :
  length mask = length features ->
  length (log_probs_of T (length features) features mask) = length features.
Proof.
  intros Hm.
  unfold log_probs_of, denominator_of, positives_mask_of, logits_mask_of,
    negatives_mask_of, logits_of, msub, ones_like, mmul, mmap, sub_rowmax,
    matmul_T, eye, eye2.
  repeat rewrite ?zipWith_length, ?length_map, ?length_seq.
  unfold matrix, vec in *. lia.
Qed.




End InfoNCE2Facts.

(** ** SupConLoss *)

Section SupConLossFacts.
Import SupConLoss.

Lemma enumerate_length (A : Type) (l : list A) :
  length (enumerate l) = length l.
Proof.
  unfold enumerate. rewrite length_combine, length_seq. apply Nat.min_id.
Qed.

Lemma mapi_length (A B : Type) (f : nat -> A -> B) (l : list A) :
  length (mapi f l) = length l.
Proof. unfold mapi. now rewrite length_map, enumerate_length. Qed.

Lemma scatter_diag0_length (n : nat) (m : matrix) :
  length (scatter_diag0 n m) = length m.
Proof. apply mapi_length. Qed.

Lemma sub_log_length (logits : matrix) (s : vec) :
  length (sub_log logits s) = Nat.min (length logits) (length s).
Proof. apply zipWith_length. Qed.

Lemma vmul_ones (l w : vec) :
  Forall (fun x => x = one) w -> length l <= length w -> vmul l w = l.
Proof.
  intros Hw. revert l. unfold vmul.
  induction Hw as [| x w Hx _ IH]; intros [| a l] Hlen;
    cbn [zipWith length] in *; try reflexivity; try lia.
  rewrite Hx, tmul_one_r. f_equal. apply IH. lia.
Qed.

Lemma py_div_ok (a b : tnum) : b <> zero -> py_div a b = Ok (tdiv a b).
Proof.
  intros Hb. unfold py_div. destruct b as [r | | |]; try reflexivity.
  destruct (Req_dec_T r 0%R) as [-> | _]; [now elim Hb | reflexivity].
Qed.

Lemma tmul_zero_l (y : tnum) : tmul zero y = zero \/ tmul zero y = NaN.
Proof.
  destruct y as [r | | |]; unfold zero; simpl.
  - left. f_equal. lra.
  - right. apply inf_of_sign_0.
  - right. replace (- 0)%R with 0%R by lra. apply inf_of_sign_0.
  - now right.
Qed.

Lemma tsum_zero_row (u v : vec) :
  Forall (fun x => x = zero) u ->
  tsum (vmul u v) = zero \/ tsum (vmul u v) = NaN.
Proof.
  intros Hu. revert v. unfold vmul.
  induction Hu as [| x u Hx _ IH]; intros [| y v]; cbn [zipWith];
    try (now left).
  rewrite tsum_cons. subst x.
  destruct (tmul_zero_l y) as [-> | ->]; [| now right].
  rewrite tadd_zero_l. apply IH.
Qed.

(** The mean log-probability of an anchor without positives is [0 / 0]. *)
Lemma zero_row_mean_log_prob (u v : vec) :
  Forall (fun x => x = zero) u ->
  tdiv (tsum (vmul u v)) (tsum u) = NaN.
Proof.
  intros Hu. rewrite (tsum_all_zero Hu).
  destruct (tsum_zero_row v Hu) as [-> | ->];
    [apply tdiv_zero_zero | reflexivity].
Qed.

Lemma zipWith_nth_In (A B C : Type) (f : A -> B -> C) (l : list A)
    (m : list B) (i : nat) (a : A) (b : B) :
  i < length l -> i < length m ->
  In (f (nth i l a) (nth i m b)) (zipWith f l m).
Proof.
  intros Hl Hm.
  rewrite <- (zipWith_nth f l m a b (f a b) Hl Hm).
  apply nth_In. rewrite zipWith_length. lia.
Qed.

Ltac tensor_lengths :=
  unfold mmul, mmap, sub_rowmax, matmul_T, sub_log;
  repeat (rewrite ?length_map, ?zipWith_length, ?scatter_diag0_length,
            ?length_firstn);
  try lia.

(** C7.  In the partial-label branch, per-anchor weights that are all 1
    leave the loss as it is without weights. *)
Theorem SupConLoss_unit_weights (T bT : tnum) (features mask : matrix)
    (batch_size : nat) (weights : vec) :
  supcon_shapes features mask batch_size ->
  length weights = batch_size ->
  Forall (fun w => w = one) weights ->
  forward T bT features (Some mask) batch_size (Some weights) =
  forward T bT features (Some mask) batch_size None.
Proof.
  intros (Hbs & Hm & _) Hlen Hw. unfold forward, supervised.
  destruct (Nat.eqb (length features) 0); [reflexivity |].
  destruct (py_div T bT) as [ratio | e]; simpl; [| reflexivity].
  rewrite vmul_ones; [reflexivity | assumption |].
  tensor_lengths.
Qed.

Lemma SupConLoss_unit_weights_witness :
  forward (Fin 0.07) (Fin 0.07) [[one; zero]; [zero; one]]
          (Some [[one; one]; [one; one]]) 2 (Some [one; one]) =
  forward (Fin 0.07) (Fin 0.07) [[one; zero]; [zero; one]]
          (Some [[one; one]; [one; one]]) 2 None.
Proof.
  apply SupConLoss_unit_weights.
  - repeat split; simpl; auto.
  - reflexivity.
  - repeat constructor.
Defined.

(** C9.  In the partial-label branch an anchor whose row of the positive
    mask is zero once the self-pair is masked out has its mean
    log-probability computed as [0 / 0]: the row is not left out (as
    [InfoNCE2] leaves it out), and the loss returned is [nan]. *)
Theorem SupConLoss_zero_positive_anchor (T bT : tnum)
    (features mask : matrix) (batch_size i : nat) :
  supcon_shapes features mask batch_size ->
  bT <> zero ->
  i < batch_size ->
  Forall (fun x => x = zero)
         (nth i (mmul mask (scatter_diag0 batch_size mask)) []) ->
  forward T bT features (Some mask) batch_size None = Ok NaN /\
  isfinite NaN = false.
Proof.
  intros (Hbs & Hm & _) HbT Hi Hrow. split; [| reflexivity].
  unfold forward, supervised.
  destruct (Nat.eqb_spec (length features) 0) as [H0 | _]; [lia |].
  rewrite (py_div_ok T HbT). simpl. f_equal.
  apply tmean_In_NaN, in_map_iff. exists NaN. split; [apply tmul_NaN_r |].
  match goal with
  | |- In _ (zipWith tdiv (map tsum (mmul ?m ?l)) _) =>
      set (mask' := m) in *; set (lp := l)
  end.
  assert (Hm' : length mask' = batch_size) by (subst mask'; tensor_lengths).
  assert (Hlp : length lp = batch_size) by (subst lp; tensor_lengths).
  rewrite <- (zero_row_mean_log_prob (nth i lp []) Hrow).
  replace (tsum (vmul (nth i mask' []) (nth i lp [])))
    with (nth i (map tsum (mmul mask' lp)) zero).
  - replace (tsum (nth i mask' [])) with (nth i (map tsum mask') zero)
      by apply (map_nth tsum mask' [] i).
    apply zipWith_nth_In; tensor_lengths.
  - change zero with (tsum []). rewrite map_nth. f_equal.
    unfold mmul. apply zipWith_nth; lia.
Qed.

Lemma SupConLoss_zero_positive_anchor_witness :
  forward (Fin 0.07) (Fin 0.07) [[one]; [one]]
          (Some [[zero; zero]; [zero; zero]]) 2 None = Ok NaN /\
  isfinite NaN = false.
Proof.
  apply (@SupConLoss_zero_positive_anchor (Fin 0.07) (Fin 0.07)
           [[one]; [one]] [[zero; zero]; [zero; zero]] 2 0).
  - repeat split; simpl; auto.
  - unfold zero. intros H. injection H as H. lra.
  - lia.
  - simpl. repeat constructor; simpl; unfold zero; f_equal; lra.
Defined.
End SupConLossFacts.

(** ** ConLoss *)

Section ConLossFacts.
Import ConLoss.

Lemma combine_seq_In (A : Type) (l : list A) (s i : nat) (x : A) (d : A) :
  In (i, x) (combine (seq s (length l)) l) ->
  s <= i < s + length l /\ nth (i - s) l d = x.
Proof.
  revert s. induction l as [| a l IH]; intros s; simpl; [intros [] |].
  intros [H | H].
  - injection H as <- <-. rewrite Nat.sub_diag. split; [lia | reflexivity].
  - apply IH in H as [Hr Hn]. split; [lia |].
    replace (i - s) with (S (i - S s)) by lia. exact Hn.
Qed.

Lemma enumerate_In (A : Type) (l : list A) (i : nat) (x : A) (d : A) :
  In (i, x) (enumerate l) -> i < length l /\ nth i l d = x.
Proof.
  intros H. apply (combine_seq_In l 0 i x d) in H as [Hr Hn].
  rewrite Nat.sub_0_r in Hn. split; [lia | exact Hn].
Qed.

(** The positions the loop visits are positions of [Y]. *)
Lemma pos_set_in_range (Y : matrix) (i j : nat) :
  In (i, j) (pos_set_of Y) ->
  i < length Y /\ j < length (nth i Y []).
Proof.
  unfold pos_set_of. intros H.
  apply in_flat_map in H as ([i' row] & Hrow & H).
  apply in_flat_map in H as ([j' y] & Hy & H).
  simpl in H. destruct (teqb y one); [| contradiction].
  destruct H as [H | []]. injection H as <- <-.
  apply (enumerate_In Y i' row []) in Hrow as [Hi <-].
  apply (enumerate_In _ j' y NaN) in Hy as [Hj _].
  now split.
Qed.

Lemma index_ok (A : Type) (l : list A) (i : nat) (d : A) :
  i < length l -> index l i = Ok (nth i l d).
Proof. intros H. unfold index. now rewrite (nth_error_nth' l d H). Qed.

Lemma foldM_ok (A S : Type) (f : S -> A -> result S) (l : list A) (s : S) :
  (forall s a, In a l -> exists s', f s a = Ok s') ->
  exists s', foldM f l s = Ok s'.
Proof.
  revert s. induction l as [| a l IH]; intros s Hf; simpl.
  - now exists s.
  - destruct (Hf s a (or_introl eq_refl)) as [s1 ->]. simpl.
    apply IH. intros s2 b Hb. apply Hf. now right.
Qed.

Lemma loop_body_ok (confidence : matrix) (pl : list (list nat))
    (ones zeros : vec) (ml : matrix) (i j : nat) :
  i < length confidence -> j < length (nth i confidence []) ->
  exists ml', loop_body confidence pl ones zeros ml (i, j) = Ok ml'.
Proof.
  intros Hi Hj. unfold loop_body. cbn [fst snd].
  destruct (tgtb _ zero); [| now eexists].
  rewrite (index_ok confidence [] Hi). cbn [bind].
  rewrite (index_ok _ NaN Hj). cbn [bind]. now eexists.
Qed.

(** What a call that returns has gone through. *)
Lemma forward_inv (bT : tnum) (confidence outputs : matrix)
    (features : list matrix) (Y : matrix) (idx : list nat)
    (loss : tnum) (t : matrix) :
  forward bT confidence outputs features Y idx = Ok (loss, t) ->
  length (contrast_feature_of (length (hd [] features)) features) <> 0 /\
  (exists tp, mapM argmax (mmul (output_sm_d_of (length Y) outputs) Y)
              = Ok tp) /\
  (exists ratio, py_div temperature bT = Ok ratio) /\
  t = new_target_of Y (output_sm_d_of (length Y) outputs).
Proof.
  unfold forward.
  destruct (Nat.eqb_spec
              (length (contrast_feature_of (length (hd [] features))
                         features)) 0) as [| Hne];
    [discriminate |].
  destruct (mapM argmax _) as [tp | e]; [| discriminate]. cbn [bind].
  destruct (foldM _ _ _) as [ml | e]; [| discriminate]. cbn [bind].
  destruct (py_div temperature bT) as [ratio | e]; [| discriminate].
  cbn [bind]. intros H. injection H as _ <-.
  repeat split; try assumption; eexists; reflexivity.
Qed.

(** A call returns as soon as the views are not empty, every row of [Y]
    has a class, the confidence has an entry wherever [Y] has one and
    the base temperature is not zero; its target is the refined one. *)
Lemma forward_ok (bT : tnum) (confidence outputs : matrix)
    (features : list matrix) (Y : matrix) (idx : list nat)
    (tp : list nat) (ratio : tnum) :
  length (contrast_feature_of (length (hd [] features)) features) <> 0 ->
  mapM argmax (mmul (output_sm_d_of (length Y) outputs) Y) = Ok tp ->
  py_div temperature bT = Ok ratio ->
  covers confidence Y ->
  exists loss,
    forward bT confidence outputs features Y idx =
    Ok (loss, new_target_of Y (output_sm_d_of (length Y) outputs)).
Proof.
  intros Hne Htp Hr Hc. unfold forward.
  destruct (Nat.eqb_spec
              (length (contrast_feature_of (length (hd [] features))
                         features)) 0) as [| _];
    [contradiction |].
  rewrite Htp. cbn [bind].
  match goal with
  | |- context [foldM ?f ?l ?s] =>
      destruct (@foldM_ok _ _ f l s) as [ml ->]
  end.
  - intros ml [i j] Hin.
    apply pos_set_in_range in Hin as [Hi Hj].
    destruct (Hc i Hi) as [Hi' Hj'].
    apply loop_body_ok; lia.
  - cbn [bind]. rewrite Hr. cbn [bind]. eexists. reflexivity.
Qed.

Lemma softmax_length (v : vec) : length (softmax v) = length v.
Proof. unfold softmax. apply length_map. Qed.

(** The call is the call with the softmax of the model in the place of
    [F.softmax]. *)
Lemma forward_with_softmax (bT : tnum) (confidence outputs : matrix)
    (features : list matrix) (Y : matrix) (idx : list nat) :
  forward_with bT softmax confidence outputs features Y idx =
  forward bT confidence outputs features Y idx.
Proof. reflexivity. Qed.

(** The target of a call that returns, whatever the softmax. *)
Lemma forward_with_target (sm_fn : vec -> vec) (bT : tnum)
    (confidence outputs : matrix) (features : list matrix) (Y : matrix)
    (idx : list nat) (loss : tnum) (t : matrix) :
  forward_with bT sm_fn confidence outputs features Y idx = Ok (loss, t) ->
  (exists tp, mapM argmax (mmul (output_sm_d_with sm_fn (length Y) outputs) Y)
              = Ok tp) /\
  t = new_target_of Y (output_sm_d_with sm_fn (length Y) outputs).
Proof.
  unfold forward_with.
  destruct (Nat.eqb _ 0); [discriminate |].
  destruct (mapM argmax _) as [tp | e]; [| discriminate]. cbn [bind].
  destruct (foldM _ _ _) as [ml | e]; [| discriminate]. cbn [bind].
  destruct (py_div temperature bT) as [ratio | e]; [| discriminate].
  cbn [bind]. intros H. injection H as _ <-.
  split; [eexists |]; reflexivity.
Qed.

Lemma new_target_rows (Y sm : matrix) :
  length (new_target_of Y sm) = Nat.min (length Y) (length sm).
Proof.
  unfold new_target_of, mmul. now rewrite length_map, zipWith_length.
Qed.

(** Row [i] of the refined target: the row of [Y] times the row of the
    softmax, over its sum. *)
Lemma new_target_row (Y sm : matrix) (i : nat) :
  i < length Y -> i < length sm ->
  nth i (new_target_of Y sm) [] =
  map (fun x => tdiv x (tsum (vmul (nth i Y []) (nth i sm []))))
      (vmul (nth i Y []) (nth i sm [])).
Proof.
  intros Hi Hj. unfold new_target_of.
  set (g := fun row : vec => map (fun x => tdiv x (tsum row)) row).
  change (@nil tnum) with (g []) at 1. rewrite map_nth. unfold g, mmul.
  now rewrite (zipWith_nth vmul Y sm [] [] []).
Qed.

Lemma new_target_length (Y outputs : matrix) :
  length Y <= length outputs ->
  length (new_target_of Y (output_sm_d_of (length Y) outputs)) = length Y.
Proof.
  intros H. unfold new_target_of, output_sm_d_of, mmul.
  rewrite length_map, zipWith_length, length_map, length_firstn. lia.
Qed.

(** Row [i] of the refined target: the row of [Y] times the softmax of
    the row of the outputs, over its sum. *)
Lemma new_target_nth (Y outputs : matrix) (i : nat) :
  length Y <= length outputs -> i < length Y ->
  nth i (new_target_of Y (output_sm_d_of (length Y) outputs)) [] =
  map (fun x => tdiv x (tsum (vmul (nth i Y []) (softmax (nth i outputs [])))))
      (vmul (nth i Y []) (softmax (nth i outputs []))).
Proof.
  intros Hlen Hi. unfold new_target_of, output_sm_d_of.
  set (g := fun row : vec => map (fun x => tdiv x (tsum row)) row).
  change (@nil tnum) with (g []) at 1. rewrite map_nth. unfold g.
  assert (Hrow : nth i (mmul Y (map softmax (firstn (length Y) outputs))) []
                 = vmul (nth i Y []) (softmax (nth i outputs []))).
  { unfold mmul.
    rewrite (zipWith_nth vmul Y _ [] [] []);
      [| lia | rewrite length_map, length_firstn; lia].
    f_equal. change (@nil tnum) with (softmax []) at 1.
    rewrite map_nth, nth_firstn.
    destruct (Nat.ltb_spec i (length Y)); [reflexivity | lia]. }
  now rewrite Hrow.
Qed.

Lemma new_target_covers (Y outputs : matrix) :
  conloss_shapes outputs Y ->
  covers (new_target_of Y (output_sm_d_of (length Y) outputs)) Y.
Proof.
  intros [Hlen Hrows] i Hi. split.
  - rewrite new_target_length; assumption.
  - rewrite new_target_nth by assumption.
    unfold vmul. rewrite length_map, zipWith_length, softmax_length.
    rewrite (Hrows i Hi). lia.
Qed.

(** C10.  The refined target [ConLoss] returns does not depend on the
    confidence it is given: two calls that differ in the confidence only
    and both return, return the same target. *)
Theorem ConLoss_target_ignores_confidence (bT : tnum)
    (confidence1 confidence2 outputs : matrix) (features : list matrix)
    (Y : matrix) (idx : list nat) (loss1 loss2 : tnum) (t1 t2 : matrix) :
  forward bT confidence1 outputs features Y idx = Ok (loss1, t1) ->
  forward bT confidence2 outputs features Y idx = Ok (loss2, t2) ->
  t1 = t2.
Proof.
  intros H1 H2.
  apply forward_inv in H1 as (_ & _ & _ & ->).
  apply forward_inv in H2 as (_ & _ & _ & ->).
  reflexivity.
Qed.

(** C3.  Fed back as the confidence of a second call on the same outputs,
    features, candidates and indices, the refined target comes out
    again: the second call returns, and returns the target of the
    first. *)
Theorem ConLoss_refinement_fixed_point (bT : tnum)
    (confidence outputs : matrix) (features : list matrix) (Y : matrix)
    (idx : list nat) (loss : tnum) (t : matrix) :
  conloss_shapes outputs Y ->
  forward bT confidence outputs features Y idx = Ok (loss, t) ->
  exists loss', forward bT t outputs features Y idx = Ok (loss', t).
Proof.
  intros Hs H.
  apply forward_inv in H as (Hne & (tp & Htp) & (ratio & Hr) & ->).
  apply (@forward_ok bT _ outputs features Y idx tp ratio Hne Htp Hr).
  now apply new_target_covers.
Qed.

Section RowSums.
Local Open Scope R_scope.

Lemma positive_nonneg (x : tnum) : positive x -> nonneg x.
Proof. intros (r & -> & Hr). exists r. split; [reflexivity | lra]. Qed.

Lemma positive_tadd_l (a b : tnum) :
  positive a -> nonneg b -> positive (tadd a b).
Proof.
  intros (x & -> & Hx) (y & -> & Hy). exists (x + y).
  split; [reflexivity | lra].
Qed.

Lemma positive_tadd_r (a b : tnum) :
  nonneg a -> positive b -> positive (tadd a b).
Proof. intros Ha Hb. rewrite tadd_comm. now apply positive_tadd_l. Qed.

Lemma tsum_exp_positive (v : vec) :
  Forall finite v -> v <> [] -> positive (tsum (map texp v)).
Proof.
  intros Hv Hne. destruct Hv as [| x v (r & ->) Hv]; [contradiction |].
  cbn [map]. rewrite tsum_cons. apply positive_tadd_l.
  - exists (exp r). split; [reflexivity | apply exp_pos].
  - apply nonneg_tsum, Forall_map.
    eapply Forall_impl; [| exact Hv]. apply nonneg_texp.
Qed.

(** The softmax of finite outputs gives every class a positive
    probability. *)
Lemma softmax_positive (v : vec) :
  Forall finite v -> Forall positive (softmax v).
Proof.
  intros Hv. unfold softmax.
  destruct v as [| x0 v0] eqn:E; [constructor |]. rewrite <- E in *.
  destruct (tsum_exp_positive Hv) as (s & -> & Hs);
    [rewrite E; discriminate |].
  apply Forall_map. eapply Forall_impl; [| exact Hv].
  intros x (r & ->). exists (exp r / s). simpl.
  destruct (Req_dec_T s 0); [lra |].
  split; [reflexivity |].
  apply Rdiv_lt_0_compat; [apply exp_pos | assumption].
Qed.

Lemma tsum_div (row : vec) (d : R) :
  d <> 0 -> Forall finite row ->
  exists r, tsum row = Fin r /\
            tsum (map (fun x => tdiv x (Fin d)) row) = Fin (r / d).
Proof.
  intros Hd. induction 1 as [| x row (a & ->) _ (r & Hr & IH)].
  - exists 0. split; [reflexivity |].
    change (Fin 0 = Fin (0 / d)). f_equal. unfold Rdiv. ring.
  - exists (a + r). cbn [map]. rewrite !tsum_cons, Hr, IH. simpl.
    destruct (Req_dec_T d 0); [contradiction |]. simpl.
    split; [reflexivity |]. f_equal. unfold Rdiv. ring.
Qed.

(** With weights that are not negative, a candidate of positive weight
    keeps the mass of the row positive. *)
Lemma nonneg_vmul_weights (y w : vec) :
  Forall binary y -> Forall nonneg w -> Forall nonneg (vmul y w).
Proof.
  intros Hy Hw. unfold vmul.
  apply zipWith_Forall with (P := binary) (Q := nonneg); auto.
  intros a b Ha Hb. apply nonneg_tmul; [now apply binary_nonneg | assumption].
Qed.

Lemma candidate_mass_positive (y w : vec) :
  Forall binary y -> Forall nonneg w -> candidate_mass y w ->
  positive (tsum (vmul y w)).
Proof.
  intros Hy Hw [j [Hj Hp]]. revert w j Hw Hj Hp.
  induction Hy as [| a y Ha Hy IH]; intros w j Hw Hj Hp.
  - destruct j; discriminate Hj.
  - destruct Hw as [| b w Hb Hw].
    + destruct Hp as (r & Hr & _). destruct j; discriminate Hr.
    + unfold vmul. cbn [zipWith]. fold (vmul y w). rewrite tsum_cons.
      destruct j as [| j]; cbn [nth] in Hj, Hp.
      * subst a. apply positive_tadd_l.
        -- destruct Hp as (r & -> & Hr). exists (1 * r).
           split; [reflexivity | lra].
        -- apply nonneg_tsum. now apply nonneg_vmul_weights.
      * apply positive_tadd_r.
        -- apply nonneg_tmul; [now apply binary_nonneg | assumption].
        -- now apply (IH w j).
Qed.

(** A row of finite entries divided by its sum, when the sum is positive,
    sums to one. *)
Lemma normalised_row_sums_to_one (row : vec) (s : R) :
  Forall finite row -> tsum row = Fin s -> 0 < s ->
  tsum (map (fun x => tdiv x (Fin s)) row) = one.
Proof.
  intros Hfin Hs Hpos.
  assert (Hd : s <> 0) by lra.
  destruct (tsum_div Hd Hfin) as (r & Hr & ->).
  rewrite Hs in Hr. injection Hr as <-.
  unfold one. f_equal. now field.
Qed.
End RowSums.

Lemma example_shapes : conloss_shapes Example.outputs Example.Y.
Proof.
  split; [simpl; lia |].
  intros [| [| i]] Hi; simpl in *; try reflexivity; lia.
Qed.

Lemma example_covers (c : matrix) :
  length c = 2 -> Forall (fun row => length row = 2) c ->
  covers c Example.Y.
Proof.
  intros Hlen Hrows i Hi. split; [simpl in Hi; lia |].
  assert (H : length (nth i c []) = 2).
  { rewrite Forall_forall in Hrows. apply Hrows, nth_In.
    simpl in Hi. lia. }
  rewrite H. destruct i as [| [| i]]; simpl in *; lia.
Qed.

Lemma example_returns (c : matrix) :
  covers c Example.Y ->
  exists loss t,
    forward Example.base_temperature c Example.outputs Example.features
            Example.Y [0; 1] = Ok (loss, t).
Proof.
  intros Hc.
  destruct (@forward_ok Example.base_temperature c Example.outputs
              Example.features Example.Y [0; 1]
              [argmax_from [tmul (nth 1 (softmax [zero; one]) NaN) zero] 1 0
                 (tmul (nth 0 (softmax [zero; one]) NaN) one);
               argmax_from [tmul (nth 1 (softmax [one; zero]) NaN) one] 1 0
                 (tmul (nth 0 (softmax [one; zero]) NaN) one)]
              (tdiv temperature Example.base_temperature))
    as [loss H].
  - simpl. lia.
  - reflexivity.
  - apply py_div_ok. unfold Example.base_temperature, zero.
    intros H. injection H as H. lra.
  - exact Hc.
  - now exists loss, (new_target_of Example.Y
                        (output_sm_d_of (length Example.Y) Example.outputs)).
Qed.

Lemma ConLoss_target_ignores_confidence_witness :
  exists loss1 loss2 t,
    forward Example.base_temperature Example.confidence Example.outputs
            Example.features Example.Y [0; 1] = Ok (loss1, t) /\
    forward Example.base_temperature Example.uniform Example.outputs
            Example.features Example.Y [0; 1] = Ok (loss2, t).
Proof.
  destruct (@example_returns Example.confidence) as (l1 & t1 & H1).
  { apply example_covers; [reflexivity | repeat constructor]. }
  destruct (@example_returns Example.uniform) as (l2 & t2 & H2).
  { apply example_covers; [reflexivity | repeat constructor]. }
  exists l1, l2, t1. split; [exact H1 |].
  rewrite (@ConLoss_target_ignores_confidence _ _ _ _ _ _ _ _ _ _ _ H1 H2).
  exact H2.
Defined.

Lemma ConLoss_refinement_fixed_point_witness :
  exists loss t loss',
    forward Example.base_temperature Example.confidence Example.outputs
            Example.features Example.Y [0; 1] = Ok (loss, t) /\
    forward Example.base_temperature t Example.outputs
            Example.features Example.Y [0; 1] = Ok (loss', t).
Proof.
  destruct (@example_returns Example.confidence) as (l & t & H).
  { apply example_covers; [reflexivity | repeat constructor]. }
  destruct (@ConLoss_refinement_fixed_point _ _ _ _ _ _ _ _ example_shapes H)
    as [l' H'].
  exists l, t, l'. split; assumption.
Defined.

Lemma example_softmax_positive :
  mall positive (output_sm_d_with softmax (length Example.Y) Example.outputs).
Proof.
  unfold mall, output_sm_d_with.
  cbn [Example.Y Example.outputs length firstn map].
  repeat (apply Forall_cons;
          [apply softmax_positive; repeat constructor; eexists; reflexivity
          |]).
  constructor.
Qed.

(** C2.  Whatever [F.softmax] returns for the outputs, as soon as it has
    the shape of [Y], its entries are numbers that are not negative and
    in every row some candidate class (an entry 1 of the 0/1 matrix [Y])
    has a positive probability: the refined target a call of [ConLoss]
    returns has a row per row of [Y], of the length of that row; the row
    is the row of [Y] times the row of the softmax, entry by entry, over
    the sum of these products, which is positive; and the row sums to
    one. *)
Theorem ConLoss_target_rows_sum_to_one (softmax_fn : vec -> vec)
    (bT : tnum) (confidence outputs : matrix) (features : list matrix)
    (Y : matrix) (idx : list nat) (loss : tnum) (t : matrix) :
  let sm := output_sm_d_with softmax_fn (length Y) outputs in
  same_shape sm Y ->
  mall binary Y ->
  mall nonneg sm ->
  (forall i, i < length Y -> candidate_mass (nth i Y []) (nth i sm [])) ->
  forward_with bT softmax_fn confidence outputs features Y idx
  = Ok (loss, t) ->
  length t = length Y /\
  forall i, i < length Y ->
    length (nth i t []) = length (nth i Y []) /\
    (exists s : R,
       (0 < s)%R /\
       tsum (vmul (nth i Y []) (nth i sm [])) = Fin s /\
       nth i t [] =
       map (fun x => tdiv x (Fin s)) (vmul (nth i Y []) (nth i sm []))) /\
    tsum (nth i t []) = one.
Proof.
  intros sm [Hlen Hrows] HY Hsm Hcand H.
  apply forward_with_target in H as [_ ->]. fold sm.
  split; [rewrite new_target_rows; lia |].
  intros i Hi.
  rewrite new_target_row by lia.
  assert (Hy : Forall binary (nth i Y [])).
  { unfold mall in HY. rewrite Forall_forall in HY. apply HY, nth_In, Hi. }
  assert (Hp : Forall nonneg (nth i sm [])).
  { unfold mall in Hsm. rewrite Forall_forall in Hsm.
    apply Hsm, nth_In. lia. }
  destruct (candidate_mass_positive Hy Hp (Hcand i Hi)) as (s & Hs & Hpos).
  rewrite Hs.
  split; [| split].
  - unfold vmul. rewrite length_map, zipWith_length, (Hrows i Hi). lia.
  - exists s. repeat split; assumption.
  - apply normalised_row_sums_to_one; [| exact Hs | assumption].
    eapply Forall_impl; [| exact (nonneg_vmul_weights Hy Hp)].
    apply nonneg_finite.
Qed.

Lemma ConLoss_target_rows_sum_to_one_witness :
  exists loss t,
    forward Example.base_temperature Example.confidence Example.outputs
            Example.features Example.Y [0; 1] = Ok (loss, t) /\
    length t = 2 /\
    tsum (nth 0 t []) = one /\ tsum (nth 1 t []) = one.
Proof.
  destruct (@example_returns Example.confidence) as (l & t & H).
  { apply example_covers; [reflexivity | repeat constructor]. }
  exists l, t. split; [exact H |].
  destruct (@ConLoss_target_rows_sum_to_one softmax
              Example.base_temperature Example.confidence Example.outputs
              Example.features Example.Y [0; 1] l t) as [Hlen Hrow].
  - split; [reflexivity |].
    intros [| [| i]] Hi; simpl in *; try reflexivity; lia.
  - repeat constructor; (now left) || (now right).
  - eapply Forall_impl; [| exact example_softmax_positive].
    intros row Hrow. eapply Forall_impl; [| exact Hrow].
    apply positive_nonneg.
  - pose proof example_softmax_positive as Hp.
    inversion Hp as [| p0 ps0 Hp0 Hp1]; subst.
    inversion Hp1 as [| p1 ps1 Hp1' _]; subst.
    intros [| [| i]] Hi; [| | simpl in Hi; lia];
      exists 0; (split; [reflexivity |]).
    + now inversion Hp0.
    + now inversion Hp1'.
  - exact H.
  - split; [exact Hlen |].
    split; [apply (Hrow 0) | apply (Hrow 1)]; simpl; lia.
Defined.
End ConLossFacts.

(** ** PaPiLoss *)

Section PaPiLossFacts.
Import PaPiLoss.

Lemma mapM_index (A : Type) (t : list A) (idx : list nat) (l : list A)
    (d : A) :
  mapM (index t) idx = Ok l -> l = map (fun i => nth i t d) idx.
Proof.
  revert l. induction idx as [| i idx IH]; intros l; simpl.
  - intros H. now injection H as <-.
  - unfold index at 1.
    destruct (nth_error t i) as [a |] eqn:E; [| discriminate]. cbn [bind].
    destruct (mapM (index t) idx) as [l' | e]; [| discriminate]. cbn [bind].
    intros H. injection H as <-.
    now rewrite (nth_error_nth t i d E), (IH l' eq_refl).
Qed.

(** C8.  The second output of [PaPiLoss] is the sum over the two
    prototype branches of the [Lambda]-weighted combination of the
    criterion applied to the branch's tempered log-softmax against the
    confidence rows of the batch indices and against the confidence rows
    of the [idx_rp]-permuted indices. *)
Theorem PaPiLoss_sim_loss (crit : matrix -> matrix -> tnum)
    (cls_out_1 logits_prot_1_mix logits_prot_2_mix confidence : matrix)
    (idx_rp : list nat) (Lambda : tnum) (idx : list nat)
    (cls_loss sim_loss : tnum) :
  forward crit cls_out_1 logits_prot_1_mix logits_prot_2_mix confidence
          idx_rp Lambda idx = Ok (cls_loss, sim_loss) ->
  let log_p1 := tempered_log_softmax logits_prot_1_mix in
  let log_p2 := tempered_log_softmax logits_prot_2_mix in
  let c := map (fun i => nth i confidence []) idx in
  let c_rp := map (fun k => nth (nth k idx 0) confidence []) idx_rp in
  sim_loss = sim_loss_spec crit Lambda [log_p1; log_p2] c c_rp /\
  sim_loss =
    tadd (tadd (tmul Lambda (crit log_p1 c))
               (tmul (tsub one Lambda) (crit log_p1 c_rp)))
         (tadd (tmul Lambda (crit log_p2 c))
               (tmul (tsub one Lambda) (crit log_p2 c_rp))).
Proof.
  unfold forward, gather.
  destruct (mapM (index confidence) idx) as [c |] eqn:Ec; [| discriminate].
  cbn [bind].
  destruct (mapM (index idx) idx_rp) as [irp |] eqn:Ei; [| discriminate].
  cbn [bind].
  destruct (mapM (index confidence) irp) as [crp |] eqn:Er; [| discriminate].
  cbn [bind]. intros H. injection H as _ <-.
  apply (mapM_index _ _ []) in Ec. apply (mapM_index _ _ 0) in Ei.
  apply (mapM_index _ _ []) in Er.
  subst c irp crp. rewrite map_map. split; reflexivity.
Qed.

Lemma PaPiLoss_sim_loss_witness :
  let crit := fun lp c : matrix => tsum (map tsum (mmul lp c)) in
  let logits := [[zero; one]; [one; zero]] in
  let confidence := [[one; zero]; [zero; one]] in
  exists cls_loss sim_loss,
    forward crit logits logits logits confidence [1; 0] (Fin 0.5) [0; 1] =
      Ok (cls_loss, sim_loss) /\
    sim_loss =
      sim_loss_spec crit (Fin 0.5)
        [tempered_log_softmax logits; tempered_log_softmax logits]
        [[one; zero]; [zero; one]] [[zero; one]; [one; zero]].
Proof.
  intros crit logits confidence.
  eexists. eexists. split; [reflexivity |].
  exact (proj1 (@PaPiLoss_sim_loss crit logits logits logits confidence
                  [1; 0] (Fin 0.5) [0; 1] _ _ eq_refl)).
Defined.
End PaPiLossFacts.

(** ** InfoNCE *)

Section SeqFacts.
Variables A B : Type.

Lemma map_seq_nth (f : A -> B) (l : list A) (d : A) :
  map f l = map (fun i => f (nth i l d)) (seq 0 (length l)).
Proof.
  induction l as [| a l IH]; simpl; [reflexivity |].
  f_equal. rewrite <- seq_shift, map_map. exact IH.
Qed.

Lemma nth_map_seq (F : nat -> B) (n i : nat) (d : B) :
  i < n -> nth i (map F (seq 0 n)) d = F i.
Proof.
  intros Hi. rewrite (nth_indep _ d (F 0))
    by now rewrite length_map, length_seq.
  rewrite map_nth, seq_nth by assumption. reflexivity.
Qed.

Lemma nth_error_map_seq (F : nat -> B) (n j : nat) :
  nth_error (map F (seq 0 n)) j = if Nat.ltb j n then Some (F j) else None.
Proof.
  destruct (Nat.ltb_spec j n) as [Hj | Hj].
  - rewrite (nth_error_nth' _ (F 0))
      by now rewrite length_map, length_seq.
    now rewrite nth_map_seq.
  - apply nth_error_None. now rewrite length_map, length_seq.
Qed.

Lemma flat_map_singleton (f : A -> list B) (g : A -> B) (l : list A) :
  (forall x, In x l -> f x = [g x]) -> flat_map f l = map g l.
Proof.
  induction l as [| a l IH]; intros H; simpl; [reflexivity |].
  rewrite (H a (or_introl eq_refl)), IH; [reflexivity |].
  intros x Hx. apply H. now right.
Qed.

Lemma flat_map_empty (f : A -> list B) (l : list A) :
  (forall x, In x l -> f x = []) -> flat_map f l = [].
Proof.
  induction l as [| a l IH]; intros H; simpl; [reflexivity |].
  rewrite (H a (or_introl eq_refl)), IH; [reflexivity |].
  intros x Hx. apply H. now right.
Qed.
End SeqFacts.

Lemma seq_add_map (n s k : nat) :
  map (fun i => i + k) (seq s n) = seq (s + k) n.
Proof.
  revert s. induction n as [| n IH]; intros s; simpl; [reflexivity |].
  f_equal. apply (IH (S s)).
Qed.

Lemma seq_double (n : nat) :
  seq 0 (n * 2) = seq 0 n ++ map (fun i => i + n) (seq 0 n).
Proof.
  rewrite seq_add_map. replace (n * 2) with (n + n) by lia.
  apply seq_app.
Qed.

Section InfoNCEFacts.
Import InfoNCE.
Variable cos : vec -> vec -> tnum.
Variable T : tnum.

Lemma similarity_index (z : matrix) :
  map (fun a => map (fun b => cos a b) z) z = sim_entries cos z (length z).
Proof.
  unfold sim_entries.
  rewrite (map_seq_nth (fun a => map (fun b => cos a b) z) z []).
  apply map_ext. intros i.
  apply (map_seq_nth (fun b => cos (nth i z []) b) z []).
Qed.

Lemma sim_entries_row (z : matrix) (n i : nat) :
  i < n ->
  nth i (sim_entries cos z n) [] =
  map (fun j => cos (nth i z []) (nth j z [])) (seq 0 n).
Proof. intros Hi. unfold sim_entries. now rewrite nth_map_seq. Qed.

Lemma sim_entries_length (z : matrix) (n : nat) :
  length (sim_entries cos z n) = n.
Proof. unfold sim_entries. now rewrite length_map, length_seq. Qed.

Lemma diag_above_index (z : matrix) (n : nat) :
  diag_above (sim_entries cos z (n * 2)) n =
  map (fun i => cos (nth i z []) (nth (i + n) z [])) (seq 0 n).
Proof.
  unfold diag_above.
  rewrite sim_entries_length, seq_double, flat_map_app.
  rewrite (flat_map_singleton _
             (fun i => cos (nth i z []) (nth (i + n) z []))).
  - rewrite flat_map_empty; [apply app_nil_r |].
    intros x Hx. apply in_map_iff in Hx as (i & <- & Hi).
    apply in_seq in Hi.
    rewrite sim_entries_row, nth_error_map_seq by lia.
    destruct (Nat.ltb_spec (i + n + n) (n * 2)); [lia | reflexivity].
  - intros i Hi. apply in_seq in Hi.
    rewrite sim_entries_row, nth_error_map_seq by lia.
    destruct (Nat.ltb_spec (i + n) (n * 2)); [reflexivity | lia].
Qed.

Lemma diag_below_index (z : matrix) (n : nat) :
  diag_below (sim_entries cos z (n * 2)) n =
  map (fun i => cos (nth (i + n) z []) (nth i z [])) (seq 0 n).
Proof.
  unfold diag_below. rewrite sim_entries_length.
  replace (n * 2 - n) with n by lia.
  apply flat_map_singleton. intros i Hi. apply in_seq in Hi.
  rewrite sim_entries_row, nth_error_map_seq by lia.
  destruct (Nat.ltb_spec i (n * 2)); [reflexivity | lia].
Qed.

Lemma positives_index (z : matrix) (n : nat) :
  diag_above (sim_entries cos z (n * 2)) n ++
  diag_below (sim_entries cos z (n * 2)) n =
  map (fun k => cos (nth k z []) (nth (partner n k) z [])) (seq 0 (n * 2)).
Proof.
  rewrite diag_above_index, diag_below_index, seq_double, map_app, map_map.
  f_equal; apply map_ext_in; intros i Hi; apply in_seq in Hi;
    unfold partner.
  - destruct (Nat.ltb_spec i n); [reflexivity | lia].
  - destruct (Nat.ltb_spec (i + n) n); [lia |].
    now replace (i + n - n) with i by lia.
Qed.

Lemma denominator_index (z : matrix) :
  map tsum
    (mmul (not_eye (length z))
          (mmap (fun x => texp (tdiv x T)) (sim_entries cos z (length z)))) =
  map (row_denominator cos T z) (seq 0 (length z)).
Proof.
  unfold mmul, not_eye, mmap, sim_entries.
  rewrite map_map, zipWith_map_same, map_map.
  apply map_ext. intros i. unfold row_denominator, vmul.
  now rewrite map_map, zipWith_map_same.
Qed.

(** The losses of the rows, entry by entry. *)
Lemma all_losses_index (z_i z_j : matrix) :
  length z_j = length z_i ->
  all_losses_of cos T z_i z_j =
  map (infonce_row_loss cos T (z_i ++ z_j) (length z_i))
      (seq 0 (length z_i * 2)).
Proof.
  intros Hlen. unfold all_losses_of.
  assert (Hz : length (z_i ++ z_j) = length z_i * 2)
    by (rewrite length_app; lia).
  rewrite similarity_index, Hz, positives_index.
  rewrite <- Hz at 2 3. rewrite denominator_index, Hz.
  rewrite map_map, zipWith_map_same, map_map.
  reflexivity.
Qed.

Lemma both_views_Permutation (p : list nat) (n : nat) :
  Permutation p (seq 0 n) ->
  Permutation (both_views p n) (seq 0 (n * 2)).
Proof.
  intros Hp. unfold both_views. rewrite seq_double.
  apply Permutation_app; [assumption | now apply Permutation_map].
Qed.

Lemma Permutation_seq_bound (p : list nat) (n k : nat) :
  Permutation p (seq 0 n) -> In k p -> k < n.
Proof.
  intros Hp Hk. apply (Permutation_in _ Hp), in_seq in Hk. lia.
Qed.

Lemma Permutation_seq_length (p : list nat) (n : nat) :
  Permutation p (seq 0 n) -> length p = n.
Proof.
  intros Hp. apply Permutation_length in Hp. now rewrite length_seq in Hp.
Qed.

Lemma permute_concat (p : list nat) (z_i z_j : matrix) :
  Permutation p (seq 0 (length z_i)) ->
  permute p z_i ++ permute p z_j =
  permute (both_views p (length z_i)) (z_i ++ z_j).
Proof.
  intros Hp. unfold permute, both_views. rewrite map_app, map_map.
  f_equal; apply map_ext_in; intros k Hk;
    apply (@Permutation_seq_bound _ _ k Hp) in Hk.
  - now rewrite app_nth1.
  - rewrite app_nth2 by lia. f_equal. lia.
Qed.

Lemma nth_map_lt (A B : Type) (g : A -> B) (l : list A) (k : nat)
    (a : A) (b : B) :
  k < length l -> nth k (map g l) b = g (nth k l a).
Proof.
  intros Hk. rewrite (nth_indep _ b (g a)) by now rewrite length_map.
  apply map_nth.
Qed.

Lemma map_nth_seq (A : Type) (l : list A) (d : A) :
  map (fun i => nth i l d) (seq 0 (length l)) = l.
Proof.
  rewrite <- (map_seq_nth (fun x => x) l d). apply map_id.
Qed.

Lemma partner_both_views (p : list nat) (n k : nat) :
  Permutation p (seq 0 n) -> k < n * 2 ->
  nth (partner n k) (both_views p n) 0 =
  partner n (nth k (both_views p n) 0).
Proof.
  intros Hp Hk. pose proof (@Permutation_seq_length p n Hp) as Hlen.
  unfold partner at 1, both_views.
  destruct (Nat.ltb_spec k n) as [Hlt | Hge].
  - rewrite app_nth2 by lia. rewrite (app_nth1 _ _ 0) by lia.
    replace (k + n - length p) with k by lia.
    rewrite (nth_map_lt (fun i => i + n) p 0 0) by lia.
    assert (Hq : nth k p 0 < n)
      by (apply (@Permutation_seq_bound p n _ Hp), nth_In; lia).
    unfold partner. destruct (Nat.ltb_spec (nth k p 0) n); [reflexivity | lia].
  - rewrite (app_nth1 _ _ 0) by lia. rewrite app_nth2 by lia.
    rewrite Hlen.
    rewrite (nth_map_lt (fun i => i + n) p 0 0) by lia.
    unfold partner.
    destruct (Nat.ltb_spec (nth (k - n) p 0 + n) n); [lia |].
    lia.
Qed.

Lemma not_self_injective (s : list nat) (k b : nat) :
  NoDup s -> k < length s -> b < length s ->
  not_self k b = not_self (nth k s 0) (nth b s 0).
Proof.
  intros Hnd Hk Hb. unfold not_self.
  destruct (Nat.eqb_spec k b) as [-> | Hne].
  - now rewrite Nat.eqb_refl.
  - destruct (Nat.eqb_spec (nth k s 0) (nth b s 0)) as [Heq | _];
      [| reflexivity].
    elim Hne. now apply (proj1 (NoDup_nth s 0) Hnd).
Qed.

Lemma permute_length (p : list nat) (z : matrix) :
  length (permute p z) = length p.
Proof. apply length_map. Qed.

Lemma permute_nth (s : list nat) (z : matrix) (k : nat) :
  k < length s -> nth k (permute s z) [] = nth (nth k s 0) z [].
Proof.
  intros Hk. unfold permute.
  exact (nth_map_lt (fun c => nth c z []) s 0 [] Hk).
Qed.

Lemma partner_bound (n k : nat) : k < n * 2 -> partner n k < n * 2.
Proof.
  intros Hk. unfold partner. destruct (Nat.ltb_spec k n); lia.
Qed.

(** The denominator of a row of the permuted batch is that of the row it
    comes from: the same terms in another order. *)
Lemma row_denominator_permuted (z : matrix) (s : list nat) (k : nat) :
  Permutation s (seq 0 (length z)) -> k < length z ->
  row_denominator cos T (permute s z) k =
  row_denominator cos T z (nth k s 0).
Proof.
  intros Hs Hk.
  assert (Hlen : length s = length z)
    by (apply Permutation_length in Hs; now rewrite length_seq in Hs).
  assert (Hnd : NoDup s)
    by (apply (Permutation_NoDup (Permutation_sym Hs)), seq_NoDup).
  unfold row_denominator. rewrite permute_length, Hlen.
  set (F := fun c => tmul (not_self (nth k s 0) c)
                          (exp_sim cos T (nth (nth k s 0) z []) (nth c z []))).
  transitivity (tsum (map F s)).
  - f_equal. rewrite (map_seq_nth F s 0), Hlen.
    apply map_ext_in. intros b Hb. apply in_seq in Hb. unfold F.
    rewrite !permute_nth by lia.
    now rewrite (@not_self_injective s k b) by (assumption || lia).
  - apply tsum_Permutation, Permutation_map, Hs.
Qed.

Lemma row_loss_permuted (p : list nat) (n : nat) (z : matrix) (k : nat) :
  Permutation p (seq 0 n) -> length z = n * 2 -> k < n * 2 ->
  infonce_row_loss cos T (permute (both_views p n) z) n k =
  infonce_row_loss cos T z n (nth k (both_views p n) 0).
Proof.
  intros Hp Hz Hk.
  pose proof (@both_views_Permutation p n Hp) as Hs.
  assert (Hlen : length (both_views p n) = n * 2)
    by (apply Permutation_length in Hs; now rewrite length_seq in Hs).
  unfold infonce_row_loss.
  rewrite row_denominator_permuted by (rewrite Hz; assumption).
  rewrite !permute_nth by (rewrite Hlen; auto using partner_bound).
  now rewrite partner_both_views.
Qed.

(** C6.  Permuting the samples of both batches by one permutation of
    the positions leaves the [InfoNCE] loss as it is. *)
Theorem InfoNCE_permutation_invariant (z_i z_j : matrix) (p : list nat) :
  length z_j = length z_i ->
  Permutation p (seq 0 (length z_i)) ->
  forward cos T (permute p z_i) (permute p z_j) = forward cos T z_i z_j.
Proof.
  intros Hlen Hp.
  pose proof (@Permutation_seq_length p _ Hp) as Hpl.
  pose proof (@both_views_Permutation p _ Hp) as Hs.
  assert (Hsl : length (both_views p (length z_i)) = length z_i * 2)
    by (apply Permutation_length in Hs; now rewrite length_seq in Hs).
  assert (Hz : length (z_i ++ z_j) = length z_i * 2)
    by (rewrite length_app; lia).
  unfold forward.
  rewrite !all_losses_index by (rewrite ?permute_length; lia).
  rewrite permute_concat by assumption.
  rewrite !permute_length, Hpl. f_equal.
  transitivity
    (tsum (map (infonce_row_loss cos T (z_i ++ z_j) (length z_i))
               (both_views p (length z_i)))).
  - f_equal. rewrite (map_seq_nth _ (both_views p (length z_i)) 0), Hsl.
    apply map_ext_in. intros k Hk. apply in_seq in Hk.
    apply row_loss_permuted; (assumption || lia).
  - apply tsum_Permutation, Permutation_map, Hs.
Qed.
End InfoNCEFacts.

Lemma InfoNCE_permutation_invariant_witness :
  InfoNCE.forward dot one
    (permute [1; 0] [[one; zero]; [zero; one]])
    (permute [1; 0] [[one; one]; [zero; one]]) =
  InfoNCE.forward dot one [[one; zero]; [zero; one]] [[one; one]; [zero; one]].
Proof.
  apply InfoNCE_permutation_invariant.
  - reflexivity.
  - apply perm_swap.
Defined.

(* ================================================================= *)
(** * Further properties of the losses *)

(** ** PaPiLoss: the index lookups *)

Section PaPiLossIndexing.
Import PaPiLoss.

Lemma mapM_index_in_range (A : Type) (t : list A) (idx : list nat) (d : A) :
  Forall (fun i => i < length t) idx ->
  mapM (index t) idx = Ok (map (fun i => nth i t d) idx).
Proof.
  induction 1 as [| i idx Hi _ IH]; [reflexivity |].
  cbn [mapM map]. rewrite (index_ok t d Hi), IH. reflexivity.
Qed.

Lemma mapM_index_cases (A : Type) (t : list A) (idx : list nat) :
  (exists l, mapM (index t) idx = Ok l) \/
  mapM (index t) idx = Err IndexError.
Proof.
  induction idx as [| i idx IH]; [left; now eexists |].
  cbn [mapM]. unfold index at 1 3.
  destruct (nth_error t i); [| now right]. cbn [bind].
  destruct IH as [[l ->] | ->]; [left; now eexists | now right].
Qed.

Lemma mapM_index_out_of_range (A : Type) (t : list A) (idx : list nat) :
  Exists (fun i => length t <= i) idx ->
  mapM (index t) idx = Err IndexError.
Proof.
  induction 1 as [i idx Hi | i idx _ IH]; cbn [mapM].
  - unfold index. now rewrite (proj2 (nth_error_None t i) Hi).
  - rewrite IH. unfold index. now destruct (nth_error t i).
Qed.

(** X1.  [PaPiLoss] returns when every batch index is a row of the
    confidence and every entry of [idx_rp] is a position of the batch
    indices; it raises an [IndexError] as soon as one is not. *)
Theorem PaPiLoss_index_errors (crit : matrix -> matrix -> tnum)
    (cls_out_1 logits_prot_1_mix logits_prot_2_mix confidence : matrix)
    (idx_rp : list nat) (Lambda : tnum) (idx : list nat) :
  (Forall (fun i => i < length confidence) idx ->
   Forall (fun k => k < length idx) idx_rp ->
   exists r, forward crit cls_out_1 logits_prot_1_mix logits_prot_2_mix
                     confidence idx_rp Lambda idx = Ok r) /\
  (Exists (fun i => length confidence <= i) idx \/
   Exists (fun k => length idx <= k) idx_rp ->
   forward crit cls_out_1 logits_prot_1_mix logits_prot_2_mix
           confidence idx_rp Lambda idx = Err IndexError).
Proof.
  unfold forward, gather. split.
  - intros Hidx Hrp.
    rewrite (mapM_index_in_range confidence [] Hidx). cbn [bind].
    rewrite (mapM_index_in_range idx 0 Hrp). cbn [bind].
    rewrite (mapM_index_in_range confidence (idx := map _ idx_rp) []).
    + cbn [bind]. now eexists.
    + apply Forall_map. eapply Forall_impl; [| exact Hrp].
      intros k Hk. rewrite Forall_forall in Hidx. now apply Hidx, nth_In.
  - intros [H | H].
    + now rewrite (mapM_index_out_of_range confidence H).
    + destruct (mapM_index_cases confidence idx) as [[c ->] | ->];
        [| reflexivity].
      cbn [bind]. now rewrite (mapM_index_out_of_range idx H).
Qed.

Lemma PaPiLoss_index_errors_witness :
  let crit := fun lp c : matrix => tsum (map tsum (mmul lp c)) in
  let logits := [[zero; one]; [one; zero]] in
  let confidence := [[one; zero]; [zero; one]] in
  (exists r, forward crit logits logits logits confidence [1; 0] (Fin 0.5)
                     [0; 1] = Ok r) /\
  forward crit logits logits logits confidence [1; 0] (Fin 0.5) [0; 2]
  = Err IndexError.
Proof.
  intros crit logits confidence. split.
  - apply (proj1 (PaPiLoss_index_errors crit logits logits logits
                    confidence [1; 0] (Fin 0.5) [0; 1]));
      repeat constructor.
  - apply (proj2 (PaPiLoss_index_errors crit logits logits logits
                    confidence [1; 0] (Fin 0.5) [0; 2])).
    left. apply Exists_cons_tl, Exists_cons_hd. simpl. lia.
Defined.

Lemma convex_one (x y : tnum) :
  finite x -> finite y -> tadd (tmul one x) (tmul (tsub one one) y) = x.
Proof. intros (r & ->) (q & ->). simpl. f_equal. ring. Qed.

Lemma forward_sim_loss (crit : matrix -> matrix -> tnum)
    (cls_out_1 logits_prot_1_mix logits_prot_2_mix confidence : matrix)
    (idx_rp : list nat) (Lambda : tnum) (idx : list nat)
    (cls_loss sim_loss : tnum) :
  forward crit cls_out_1 logits_prot_1_mix logits_prot_2_mix confidence
          idx_rp Lambda idx = Ok (cls_loss, sim_loss) ->
  sim_loss =
    tadd (branch_sim_loss crit Lambda
            (tempered_log_softmax logits_prot_1_mix)
            (map (fun i => nth i confidence []) idx)
            (map (fun i => nth i confidence [])
                 (map (fun k => nth k idx 0) idx_rp)))
         (branch_sim_loss crit Lambda
            (tempered_log_softmax logits_prot_2_mix)
            (map (fun i => nth i confidence []) idx)
            (map (fun i => nth i confidence [])
                 (map (fun k => nth k idx 0) idx_rp))).
Proof.
  unfold forward, gather.
  destruct (mapM (index confidence) idx) as [c |] eqn:Ec; [| discriminate].
  cbn [bind].
  destruct (mapM (index idx) idx_rp) as [irp |] eqn:Ei; [| discriminate].
  cbn [bind].
  destruct (mapM (index confidence) irp) as [crp |] eqn:Er; [| discriminate].
  cbn [bind]. intros H. injection H as _ <-.
  apply (mapM_index _ _ []) in Ec. apply (mapM_index _ _ 0) in Ei.
  apply (mapM_index _ _ []) in Er.
  subst c irp crp. reflexivity.
Qed.

(** X3.  With [Lambda = 1] the targets of the permuted pairing drop out
    of the similarity loss, provided the criterion is finite on them (a
    non-finite value times the zero weight is [nan]). *)
Theorem PaPiLoss_Lambda_one (crit : matrix -> matrix -> tnum)
    (cls_out_1 logits_prot_1_mix logits_prot_2_mix confidence : matrix)
    (idx_rp idx : list nat) (cls_loss sim_loss : tnum) :
  forward crit cls_out_1 logits_prot_1_mix logits_prot_2_mix confidence
          idx_rp one idx = Ok (cls_loss, sim_loss) ->
  let c := map (fun i => nth i confidence []) idx in
  let c_rp := map (fun k => nth (nth k idx 0) confidence []) idx_rp in
  let log_p1 := tempered_log_softmax logits_prot_1_mix in
  let log_p2 := tempered_log_softmax logits_prot_2_mix in
  finite (crit log_p1 c) -> finite (crit log_p2 c) ->
  finite (crit log_p1 c_rp) -> finite (crit log_p2 c_rp) ->
  sim_loss = tadd (crit log_p1 c) (crit log_p2 c).
Proof.
  intros H c c_rp log_p1 log_p2 H1 H2 H3 H4.
  apply forward_sim_loss in H. subst sim_loss.
  rewrite map_map. fold c c_rp log_p1 log_p2. unfold branch_sim_loss.
  now rewrite !convex_one.
Qed.

Lemma PaPiLoss_Lambda_one_witness :
  let crit := fun lp c : matrix => tsum (map tsum c) in
  let logits := [[zero; one]; [one; zero]] in
  let confidence := [[one; zero]; [zero; Fin 3]] in
  exists cls_loss sim_loss,
    forward crit logits logits logits confidence [1; 1] one [1; 0] =
      Ok (cls_loss, sim_loss) /\
    sim_loss = tadd (crit [] [[zero; Fin 3]; [one; zero]])
                    (crit [] [[zero; Fin 3]; [one; zero]]).
Proof.
  intros crit logits confidence.
  eexists. eexists. split; [reflexivity |].
  apply (@PaPiLoss_Lambda_one crit logits logits logits confidence
           [1; 1] [1; 0] _ _ eq_refl);
    unfold crit; apply finite_tsum; repeat constructor;
    apply finite_tsum; repeat constructor; eexists; reflexivity.
Defined.
End PaPiLossIndexing.

(** ** SupConLoss: the partial-label branch *)

Section SupervisedFacts.
Import SupConLoss.

Lemma mapi_eq (A B : Type) (f : nat -> A -> B) (l : list A) :
  mapi f l = mapi_at 0 f l.
Proof. reflexivity. Qed.

Lemma mapi_at_cons (A B : Type) (f : nat -> A -> B) (a : A) (l : list A)
    (s : nat) :
  mapi_at s f (a :: l) = f s a :: mapi_at (S s) f l.
Proof. reflexivity. Qed.

Lemma mapi_at_compose (A B C : Type) (f : nat -> B -> C) (g : nat -> A -> B)
    (l : list A) (s : nat) :
  mapi_at s f (mapi_at s g l) = mapi_at s (fun i x => f i (g i x)) l.
Proof.
  revert s. induction l as [| a l IH]; intros s; [reflexivity |].
  now rewrite !mapi_at_cons, IH.
Qed.

Lemma mapi_at_ext (A B : Type) (P : A -> Prop) (f g : nat -> A -> B)
    (l : list A) (s : nat) :
  Forall P l -> (forall i x, P x -> f i x = g i x) ->
  mapi_at s f l = mapi_at s g l.
Proof.
  intros Hl Hfg. revert s.
  induction Hl as [| a l Ha _ IH]; intros s; [reflexivity |].
  now rewrite !mapi_at_cons, IH, (Hfg s a Ha).
Qed.

Lemma zipWith_mapi_at (A B C D : Type) (h : B -> C -> D)
    (f : nat -> A -> B) (g : nat -> A -> C) (l : list A) (s : nat) :
  zipWith h (mapi_at s f l) (mapi_at s g l) =
  mapi_at s (fun i x => h (f i x) (g i x)) l.
Proof.
  revert s. induction l as [| a l IH]; intros s; [reflexivity |].
  rewrite !mapi_at_cons. cbn [zipWith]. now rewrite IH.
Qed.

Lemma zipWith_id_mapi_at (A C D : Type) (h : A -> C -> D)
    (g : nat -> A -> C) (l : list A) (s : nat) :
  zipWith h l (mapi_at s g l) = mapi_at s (fun i x => h x (g i x)) l.
Proof.
  revert s. induction l as [| a l IH]; intros s; [reflexivity |].
  rewrite !mapi_at_cons. cbn [zipWith]. now rewrite IH.
Qed.

Lemma Forall_True (A : Type) (l : list A) : Forall (fun _ => True) l.
Proof. apply Forall_forall. trivial. Qed.

(** The self-pair mask depends on the shape of the mask only. *)
Lemma scatter_diag0_clear_diag (n : nat) (m : matrix) :
  scatter_diag0 n (clear_diag n m) = scatter_diag0 n m.
Proof.
  unfold scatter_diag0, clear_diag. rewrite !mapi_eq, mapi_at_compose.
  apply mapi_at_ext with (P := fun _ => True); [apply Forall_True |].
  intros i row _. now rewrite !mapi_eq, mapi_at_compose.
Qed.

Lemma masked_clear_diag (n : nat) (m : matrix) :
  mall finite m ->
  mmul (clear_diag n m) (scatter_diag0 n m) = mmul m (scatter_diag0 n m).
Proof.
  intros Hm. unfold mmul, scatter_diag0, clear_diag.
  rewrite !mapi_eq, zipWith_mapi_at, zipWith_id_mapi_at.
  apply mapi_at_ext with (P := Forall finite); [exact Hm |].
  intros i row Hrow. unfold vmul.
  rewrite !mapi_eq, zipWith_mapi_at, zipWith_id_mapi_at.
  apply mapi_at_ext with (P := finite); [exact Hrow |].
  intros j x (r & ->).
  destruct (Nat.ltb i n && Nat.eqb i j); [| reflexivity].
  unfold zero. simpl. f_equal. ring.
Qed.

(** X8.  The self-pair entries of a finite mask are never read as
    positives: clearing them leaves the result of the partial-label
    branch as it is. *)
Theorem SupConLoss_mask_diagonal_ignored (T bT : tnum)
    (features mask : matrix) (batch_size : nat) (weights : option vec) :
  mall finite mask ->
  forward T bT features (Some (clear_diag batch_size mask)) batch_size
          weights =
  forward T bT features (Some mask) batch_size weights.
Proof.
  intros Hm. unfold forward, supervised.
  now rewrite scatter_diag0_clear_diag, (masked_clear_diag batch_size Hm).
Qed.

Lemma SupConLoss_mask_diagonal_ignored_witness :
  forward (Fin 0.07) (Fin 0.07) [[one]; [one]]
          (Some [[zero; one]; [one; zero]]) 2 None =
  forward (Fin 0.07) (Fin 0.07) [[one]; [one]]
          (Some [[one; one]; [one; Fin 5]]) 2 None.
Proof.
  apply (@SupConLoss_mask_diagonal_ignored (Fin 0.07) (Fin 0.07)
           [[one]; [one]] [[one; one]; [one; Fin 5]] 2 None).
  repeat constructor; eexists; reflexivity.
Defined.
End SupervisedFacts.

(** ** InfoNCE2: labels without a pair, features with a [nan] *)

Section InfoNCE2More.
Import InfoNCE2.

Lemma label_mask_distinct (labels : list Z) :
  NoDup labels ->
  map (fun a => map (fun b => if Z.eqb a b then one else zero) labels) labels
  = eye (length labels).
Proof.
  intros Hnd. unfold eye, eye2.
  rewrite (map_seq_nth _ labels 0%Z).
  apply map_ext_in. intros i Hi. apply in_seq in Hi.
  rewrite (map_seq_nth _ labels 0%Z).
  apply map_ext_in. intros j Hj. apply in_seq in Hj.
  destruct (Z.eqb_spec (nth i labels 0%Z) (nth j labels 0%Z)) as [Heq | Hne];
    destruct (Nat.eqb_spec i j) as [Hij | Hij]; try reflexivity.
  - elim Hij. apply (proj1 (NoDup_nth labels 0%Z) Hnd); (assumption || lia).
  - elim Hne. now subst.
Qed.

(** X9.  Labels that are all different leave no sample a positive:
    [InfoNCE2] then does what it does without labels and mask (its loss,
    when it returns, is the mean of an empty tensor). *)
Theorem InfoNCE2_distinct_labels (T : tnum) (s : bool) (features : matrix)
    (labels : list Z) :
  NoDup labels -> length labels = length features ->
  forward T s features (Some labels) None = forward T s features None None.
Proof.
  intros Hnd Hlen. unfold forward, check_input.
  rewrite Hlen, Nat.eqb_refl, <- Hlen. now rewrite label_mask_distinct.
Qed.

Lemma InfoNCE2_distinct_labels_witness :
  forward one false [[one; zero]; [zero; one]] (Some [4%Z; 7%Z]) None =
  forward one false [[one; zero]; [zero; one]] None None.
Proof.
  apply InfoNCE2_distinct_labels; [| reflexivity].
  repeat constructor; simpl; intuition congruence.
Defined.

Lemma tmul_NaN_l (y : tnum) : tmul NaN y = NaN.
Proof. reflexivity. Qed.

Lemma dot_NaN (u v : vec) :
  In NaN u -> length v = length u -> dot u v = NaN.
Proof.
  intros Hin Hlen. unfold dot. apply tsum_In_NaN. unfold vmul.
  revert v Hlen. induction u as [| x u IH]; intros [| y v] Hlen;
    simpl in *; try lia; try contradiction.
  destruct Hin as [-> | Hin]; [now left | right].
  apply IH; [assumption | lia].
Qed.

Lemma tsub_NaN_l (y : tnum) : tsub NaN y = NaN.
Proof. reflexivity. Qed.

(** The row of the log-probabilities of a sample with a [nan] among its
    features. *)
Lemma nan_row (T : tnum) (features : matrix) (u : vec) (d : tnum) :
  In NaN u -> Forall (fun row => length row = length u) features ->
  features <> [] ->
  existsb isnan
    (map (fun x => tsub x (tlog (tadd d (Fin eps))))
       (map (fun x => tsub x (rowmax (map (fun x => tdiv x T)
                                         (map (fun v => dot u v) features))))
            (map (fun x => tdiv x T) (map (fun v => dot u v) features))))
  = true.
Proof.
  intros Hin Hrect Hne.
  destruct features as [| v features]; [contradiction |].
  apply Forall_inv in Hrect.
  cbn [map existsb]. rewrite (@dot_NaN u v Hin Hrect). reflexivity.
Qed.

Lemma logits_row (T : tnum) (features : matrix) (i : nat) :
  i < length features ->
  nth i (logits_of T features) [] =
  map (fun x => tsub x (rowmax (map (fun x => tdiv x T)
                 (map (fun v => dot (nth i features []) v) features))))
      (map (fun x => tdiv x T)
           (map (fun v => dot (nth i features []) v) features)).
Proof.
  intros Hi. unfold logits_of, sub_rowmax, mmap, matmul_T.
  rewrite !map_map.
  match goal with
  | |- nth i (map ?G features) [] = _ =>
      etransitivity; [exact (@nth_map_lt _ _ G features i [] [] Hi) |]
  end.
  now rewrite !map_map.
Qed.

(** X10.  On a call that passes the input check with a mask of the
    shape of the batch (a row and a column per sample), a [nan] among
    the features of a sample makes the whole row of its
    log-probabilities [nan], and [InfoNCE2] raises its "Log_prob has
    nan!" error instead of returning a loss. *)
Theorem InfoNCE2_nan_feature_rejected (T : tnum) (s : bool)
    (features : matrix) (labels : option (list Z)) (mask : option matrix)
    (m : matrix) (i : nat) :
  check_input (length features) labels mask = Ok m ->
  length m = length features ->
  Forall (fun row => length row = length features) m ->
  i < length features ->
  In NaN (nth i features []) ->
  Forall (fun row => length row = length (nth i features [])) features ->
  forward T s features labels mask
  = Err (ValueError "Log_prob has nan!").
Proof.
  intros Hc Hm _ Hi Hnan Hrect. unfold forward. rewrite Hc. cbn [bind].
  destruct (Nat.eqb_spec (length features) 0) as [H0 | _]; [lia |].
  pose proof (@log_probs_length T features m Hm) as Hlen.
  unfold log_probs_of in *. rewrite zipWith_length in Hlen.
  match goal with
  | |- (if existsb _ (zipWith ?g ?l ?d) then _ else _) = _ =>
      assert (Hl : i < length l) by (unfold matrix, vec in *; lia);
      assert (Hd : i < length d) by (unfold matrix, vec in *; lia);
      pose proof (@zipWith_nth_In _ _ _ g l d i [] NaN Hl Hd) as Hin;
      assert (Hex : existsb (existsb isnan) (zipWith g l d) = true)
  end.
  { apply existsb_exists. eexists. split; [exact Hin |].
    cbv beta. rewrite logits_row by assumption.
    apply nan_row; [assumption | assumption |].
    destruct features; [simpl in Hi; lia | discriminate]. }
  now rewrite Hex.
Qed.

Lemma InfoNCE2_nan_feature_rejected_witness :
  forward one false [[one; zero]; [NaN; one]] (Some [0%Z; 0%Z]) None
  = Err (ValueError "Log_prob has nan!").
Proof.
  apply (@InfoNCE2_nan_feature_rejected one false [[one; zero]; [NaN; one]]
           (Some [0%Z; 0%Z]) None [[one; one]; [one; one]] 1).
  - reflexivity.
  - reflexivity.
  - repeat constructor.
  - simpl. lia.
  - simpl. now left.
  - repeat constructor.
Defined.
End InfoNCE2More.

(** ** InfoNCE: exchanging the views *)

Section InfoNCEMore.
Import InfoNCE.
Variable cos : vec -> vec -> tnum.
Variable T : tnum.

(** A permutation of the positions that keeps the two views of a sample
    paired permutes the losses of the rows. *)
Lemma row_losses_permuted (s : list nat) (n : nat) (z : matrix) :
  Permutation s (seq 0 (n * 2)) -> length z = n * 2 ->
  (forall k, k < n * 2 -> nth (partner n k) s 0 = partner n (nth k s 0)) ->
  tsum (map (infonce_row_loss cos T (permute s z) n) (seq 0 (n * 2))) =
  tsum (map (infonce_row_loss cos T z n) (seq 0 (n * 2))).
Proof.
  intros Hs Hz Hpartner.
  assert (Hlen : length s = n * 2)
    by (apply Permutation_length in Hs; now rewrite length_seq in Hs).
  transitivity (tsum (map (infonce_row_loss cos T z n) s)).
  - f_equal. rewrite (map_seq_nth (infonce_row_loss cos T z n) s 0), Hlen.
    apply map_ext_in. intros k Hk. apply in_seq in Hk.
    assert (Hk' : k < n * 2) by lia.
    unfold infonce_row_loss.
    rewrite row_denominator_permuted by (rewrite Hz; assumption).
    rewrite !permute_nth by (rewrite Hlen; auto using partner_bound).
    rewrite Hpartner by assumption. reflexivity.
  - apply tsum_Permutation, Permutation_map, Hs.
Qed.

Lemma swap_views_Permutation (n : nat) :
  Permutation (swap_views n) (seq 0 (n * 2)).
Proof.
  unfold swap_views. replace (n * 2) with (n + n) by lia.
  rewrite seq_app. apply Permutation_app_comm.
Qed.

Lemma swap_views_nth (n k : nat) :
  k < n * 2 -> nth k (swap_views n) 0 = partner n k.
Proof.
  intros Hk. unfold swap_views, partner.
  destruct (Nat.ltb_spec k n).
  - rewrite app_nth1 by (rewrite length_seq; lia).
    rewrite seq_nth by lia. lia.
  - rewrite app_nth2 by (rewrite length_seq; lia).
    rewrite length_seq, seq_nth by lia. lia.
Qed.

Lemma permute_swap_views (z_i z_j : matrix) :
  length z_j = length z_i ->
  permute (swap_views (length z_i)) (z_i ++ z_j) = z_j ++ z_i.
Proof.
  intros Hlen. unfold permute, swap_views. rewrite map_app. f_equal.
  - change (seq (length z_i) (length z_i))
      with (seq (0 + length z_i) (length z_i)).
    rewrite <- (seq_add_map (length z_i) 0 (length z_i)), map_map.
    etransitivity; [| apply (map_nth_seq z_j [])]. rewrite Hlen.
    apply map_ext. intros k. rewrite app_nth2 by lia. f_equal. lia.
  - etransitivity; [| apply (map_nth_seq z_i [])].
    apply map_ext_in. intros k Hk. apply in_seq in Hk.
    now rewrite app_nth1 by lia.
Qed.

(** X11.  [InfoNCE] does not tell the first view from the second:
    exchanging the two batches leaves the loss as it is. *)
Theorem InfoNCE_views_exchange (z_i z_j : matrix) :
  length z_j = length z_i ->
  forward cos T z_j z_i = forward cos T z_i z_j.
Proof.
  intros Hlen. unfold forward.
  rewrite !all_losses_index by lia. rewrite Hlen. f_equal.
  rewrite <- (permute_swap_views z_i z_j Hlen).
  apply row_losses_permuted.
  - apply swap_views_Permutation.
  - rewrite length_app. lia.
  - intros k Hk.
    rewrite !swap_views_nth by auto using partner_bound. reflexivity.
Qed.
End InfoNCEMore.

Lemma InfoNCE_views_exchange_witness :
  InfoNCE.forward dot one [[one; one]; [zero; one]] [[one; zero]; [zero; one]]
  = InfoNCE.forward dot one [[one; zero]; [zero; one]]
                    [[one; one]; [zero; one]].
Proof. apply InfoNCE_views_exchange. reflexivity. Defined.

(** ** ConLoss: the refined target and the reads of the confidence *)

Section ConLossMore.
Import ConLoss.
Local Open Scope R_scope.

Lemma vmul_nth (u v : vec) (j : nat) :
  (j < length u)%nat -> (j < length v)%nat ->
  nth j (vmul u v) NaN = tmul (nth j u NaN) (nth j v NaN).
Proof. intros Hu Hv. unfold vmul. now apply zipWith_nth. Qed.

(** A row of the refined target, entry by entry. *)
Lemma refined_row_entries (y p : vec) :
  Forall binary y -> Forall nonneg p -> length p = length y ->
  candidate_mass y p ->
  Forall nonneg (map (fun x => tdiv x (tsum (vmul y p))) (vmul y p)) /\
  forall j, (j < length y)%nat -> nth j y NaN = zero ->
    nth j (map (fun x => tdiv x (tsum (vmul y p))) (vmul y p)) NaN = zero.
Proof.
  intros Hy Hp Hl Hc.
  destruct (candidate_mass_positive Hy Hp Hc) as (s & Hs & Hpos).
  rewrite Hs. split.
  - apply Forall_map.
    eapply Forall_impl; [| exact (nonneg_vmul_weights Hy Hp)].
    intros x (r & -> & Hr). exists (r / s). simpl.
    destruct (Req_dec_T s 0); [lra |].
    split; [reflexivity |]. apply Rle_mult_inv_pos; assumption.
  - intros j Hj Hzero.
    assert (Hjv : (j < length (vmul y p))%nat).
    { unfold vmul. rewrite zipWith_length. lia. }
    rewrite (nth_map_lt (fun x => tdiv x (Fin s)) _ NaN NaN Hjv).
    rewrite vmul_nth by lia. rewrite Hzero.
    assert (Hq : nonneg (nth j p NaN)).
    { rewrite Forall_forall in Hp. apply Hp, nth_In. lia. }
    destruct Hq as (q & -> & _). unfold zero. simpl.
    destruct (Req_dec_T s 0); [lra |]. f_equal. unfold Rdiv. ring.
Qed.

(** X13.  Under the conditions of the row sums (a 0/1 candidate matrix
    [Y], a softmax of its shape whose entries are numbers that are not
    negative and that gives some candidate of every row a positive
    probability), the refined target has no negative entry and is zero
    wherever [Y] is: the confidence it carries stays on the
    candidates. *)
Theorem ConLoss_target_on_candidates (softmax_fn : vec -> vec) (bT : tnum)
    (confidence outputs : matrix) (features : list matrix) (Y : matrix)
    (idx : list nat) (loss : tnum) (t : matrix) :
  let sm := output_sm_d_with softmax_fn (length Y) outputs in
  same_shape sm Y ->
  mall binary Y ->
  mall nonneg sm ->
  (forall i, (i < length Y)%nat ->
     candidate_mass (nth i Y []) (nth i sm [])) ->
  forward_with bT softmax_fn confidence outputs features Y idx
  = Ok (loss, t) ->
  mall nonneg t /\
  forall i j, (i < length Y)%nat -> (j < length (nth i Y []))%nat ->
    nth j (nth i Y []) NaN = zero -> nth j (nth i t []) NaN = zero.
Proof.
  intros sm [Hlen Hrows] HY Hsm Hcand H.
  apply forward_with_target in H as [_ ->]. fold sm.
  unfold mall in HY, Hsm. rewrite Forall_forall in HY, Hsm.
  assert (Hrow : forall i, (i < length Y)%nat ->
    Forall nonneg (nth i (new_target_of Y sm) []) /\
    forall j, (j < length (nth i Y []))%nat ->
      nth j (nth i Y []) NaN = zero ->
      nth j (nth i (new_target_of Y sm) []) NaN = zero).
  { intros i Hi. rewrite new_target_row by lia.
    apply refined_row_entries.
    - apply HY, nth_In, Hi.
    - apply Hsm, nth_In. lia.
    - now apply Hrows.
    - now apply Hcand. }
  split.
  - unfold mall. apply Forall_nth. intros i d Hi.
    rewrite new_target_rows in Hi.
    rewrite (nth_indep _ d []) by now rewrite new_target_rows.
    apply Hrow. lia.
  - intros i j Hi. now apply Hrow.
Qed.

Lemma example_softmax_shape :
  same_shape (output_sm_d_with softmax (length Example.Y) Example.outputs)
             Example.Y.
Proof.
  split; [reflexivity |].
  intros [| [| i]] Hi; simpl in *; try reflexivity; lia.
Qed.

Lemma example_softmax_nonneg :
  mall nonneg (output_sm_d_with softmax (length Example.Y) Example.outputs).
Proof.
  eapply Forall_impl; [| exact example_softmax_positive].
  intros row Hrow. eapply Forall_impl; [| exact Hrow].
  apply positive_nonneg.
Qed.

Lemma example_candidate_mass (i : nat) :
  (i < length Example.Y)%nat ->
  candidate_mass
    (nth i Example.Y [])
    (nth i (output_sm_d_with softmax (length Example.Y) Example.outputs) []).
Proof.
  pose proof example_softmax_positive as Hp.
  inversion Hp as [| p0 ps0 Hp0 Hp1]; subst.
  inversion Hp1 as [| p1 ps1 Hp1' _]; subst.
  destruct i as [| [| i]]; intros Hi; [| | simpl in Hi; lia];
    exists 0%nat; (split; [reflexivity |]).
  - now inversion Hp0.
  - now inversion Hp1'.
Qed.

Lemma ConLoss_target_on_candidates_witness :
  exists loss t,
    forward Example.base_temperature Example.confidence Example.outputs
            Example.features Example.Y [0%nat; 1%nat] = Ok (loss, t) /\
    mall nonneg t /\ nth 1 (nth 0 t []) NaN = zero.
Proof.
  destruct (@example_returns Example.confidence) as (l & t & H).
  { apply example_covers; [reflexivity | repeat constructor]. }
  exists l, t. split; [exact H |].
  destruct (@ConLoss_target_on_candidates softmax Example.base_temperature
              Example.confidence Example.outputs Example.features Example.Y
              [0%nat; 1%nat] l t) as [Hnn Hz].
  - exact example_softmax_shape.
  - repeat constructor; (now left) || (now right).
  - exact example_softmax_nonneg.
  - exact example_candidate_mass.
  - exact H.
  - split; [exact Hnn |]. apply Hz; simpl; (lia || reflexivity).
Defined.

Lemma foldM_ext (A S : Type) (f g : S -> A -> result S) (l : list A) (s : S) :
  (forall s a, In a l -> f s a = g s a) -> foldM f l s = foldM g l s.
Proof.
  revert s. induction l as [| a l IH]; intros s Hfg; [reflexivity |].
  cbn [foldM]. rewrite (Hfg s a (or_introl eq_refl)).
  destruct (g s a) as [s' | e]; [| reflexivity]. cbn [bind].
  apply IH. intros s2 b Hb. apply Hfg. now right.
Qed.

Lemma teqb_one_one : teqb one one = true.
Proof. unfold one. simpl. destruct (Req_dec_T 1 1); [reflexivity | lra]. Qed.

Lemma teqb_zero_one : teqb zero one = false.
Proof.
  unfold zero, one. simpl. destruct (Req_dec_T 0 1); [lra | reflexivity].
Qed.

(** The entry [confidence[i][j]], or the error of its lookup. *)
Lemma loop_body_lookup (confidence : matrix) (pl : list (list nat))
    (ones zeros : vec) (ml : matrix) (i j : nat) :
  loop_body confidence pl ones zeros ml (i, j) =
  let tmp := where_ (map (fun t => Nat.eqb t j) (nth i pl [])) ones zeros in
  if tgtb (tsum tmp) zero then
    c <- (row <- index confidence i ;; index row j) ;;
    Ok (update_row i
          (fun r => zipWith tadd r
                      (map (fun x => tmul x c)
                           (map (fun x => tdiv x (tsum tmp)) tmp)))
          ml)
  else Ok ml.
Proof.
  unfold loop_body. cbn [fst snd]. cbv zeta.
  destruct (tgtb _ zero); [| reflexivity].
  now destruct (index confidence i).
Qed.

(** X14.  [ConLoss] reads the confidence at the candidate positions
    only (the entries where [Y] is one): two confidences whose lookups
    agree there give the same loss and the same target, or the same
    error. *)
Theorem ConLoss_reads_candidates_only (bT : tnum)
    (confidence1 confidence2 outputs : matrix) (features : list matrix)
    (Y : matrix) (idx : list nat) :
  (forall i j, In (i, j) (pos_set_of Y) ->
     (row <- index confidence1 i ;; index row j) =
     (row <- index confidence2 i ;; index row j)) ->
  forward bT confidence1 outputs features Y idx =
  forward bT confidence2 outputs features Y idx.
Proof.
  intros Hagree. unfold forward.
  destruct (Nat.eqb _ 0); [reflexivity |].
  destruct (mapM argmax _) as [tp | e]; [| reflexivity]. cbn [bind].
  match goal with
  | |- bind (foldM ?f ?l ?s) _ = bind (foldM ?g ?l ?s) _ =>
      rewrite (@foldM_ext _ _ f g l s); [reflexivity |]
  end.
  intros ml [i j] Hin. rewrite !loop_body_lookup. cbv zeta.
  now rewrite (Hagree i j Hin).
Qed.

Lemma ConLoss_reads_candidates_only_witness :
  forward Example.base_temperature [[one; NaN]; [Fin 0.5; Fin 0.5]]
          Example.outputs Example.features Example.Y [0%nat; 1%nat] =
  forward Example.base_temperature
          [[one; Fin 7; PInf]; [Fin 0.5; Fin 0.5]; [NaN]]
          Example.outputs Example.features Example.Y [0%nat; 1%nat].
Proof.
  apply ConLoss_reads_candidates_only.
  intros i j Hin.
  assert (Hcases : ((i = 0 /\ j = 0) \/ (i = 1 /\ (j = 0 \/ j = 1)))%nat).
  { unfold pos_set_of, Example.Y, enumerate in Hin.
    cbn -[teqb] in Hin. rewrite teqb_one_one, teqb_zero_one in Hin.
    cbn in Hin.
    repeat (destruct Hin as [Hin | Hin]; [injection Hin as <- <-; auto |]).
    contradiction. }
  destruct Hcases as [[-> ->] | [-> [-> | ->]]]; reflexivity.
Defined.

(** The index [argmax_from] returns holds a maximum of the row. *)
Lemma argmax_from_max (v : vec) (i bi : nat) (b : R) :
  Forall finite v ->
  exists val,
    ((argmax_from v i bi (Fin b) = bi /\ val = b) \/
     (i <= argmax_from v i bi (Fin b) /\
      argmax_from v i bi (Fin b) - i < length v /\
      nth (argmax_from v i bi (Fin b) - i) v NaN = Fin val))%nat /\
    b <= val /\
    Forall (fun x => exists a, x = Fin a /\ a <= val) v.
Proof.
  intros Hv. revert i bi b.
  induction Hv as [| x v (a & ->) _ IH]; intros i bi b.
  - exists b. repeat split; [now left | lra | constructor].
  - cbn [argmax_from]. unfold better. cbn [isnan negb andb orb tgtb].
    destruct (Rlt_dec b a) as [Hlt | Hge].
    + destruct (IH (S i) i a) as (val & Hidx & Hle & Hall).
      exists val. repeat split.
      * right. destruct Hidx as [[-> ->] | (H1 & H2 & H3)].
        -- rewrite Nat.sub_diag. repeat split; simpl; (lia || reflexivity).
        -- repeat split; [lia | simpl; lia |].
           replace (argmax_from v (S i) i (Fin a) - i)%nat
             with (S (argmax_from v (S i) i (Fin a) - S i)) by lia.
           exact H3.
      * lra.
      * constructor; [exists a; split; [reflexivity | lra] | exact Hall].
    + destruct (IH (S i) bi b) as (val & Hidx & Hle & Hall).
      exists val. repeat split.
      * destruct Hidx as [[H1 ->] | (H1 & H2 & H3)]; [now left | right].
        repeat split; [lia | simpl; lia |].
        replace (argmax_from v (S i) bi (Fin b) - i)%nat
          with (S (argmax_from v (S i) bi (Fin b) - S i)) by lia.
        exact H3.
      * exact Hle.
      * constructor; [exists a; split; [reflexivity | lra] | exact Hall].
Qed.

Lemma argmax_max (v : vec) (k : nat) :
  Forall finite v -> argmax v = Ok k ->
  (k < length v)%nat /\
  exists val, nth k v NaN = Fin val /\
              Forall (fun x => exists a, x = Fin a /\ a <= val) v.
Proof.
  intros Hv Hk. destruct Hv as [| x v (b & ->) Hv]; [discriminate |].
  cbn [argmax] in Hk. injection Hk as <-.
  destruct (@argmax_from_max v 1 0 b Hv) as (val & Hidx & Hle & Hall).
  destruct Hidx as [[-> ->] | (H1 & H2 & H3)].
  - split; [simpl; lia |]. exists b. split; [reflexivity |].
    constructor; [exists b; split; [reflexivity | lra] | exact Hall].
  - split; [simpl; lia |]. exists val. split.
    + replace (argmax_from v 1 0 (Fin b))
        with (S (argmax_from v 1 0 (Fin b) - 1)) at 1 by lia.
      exact H3.
    + constructor; [exists b; split; [reflexivity | lra] | exact Hall].
Qed.

(** The maximum of the masked probabilities of a row with a candidate
    of positive probability sits on a candidate. *)
Lemma argmax_candidate (p y : vec) (k : nat) :
  Forall nonneg p -> Forall binary y -> length p = length y ->
  candidate_mass y p -> argmax (vmul p y) = Ok k -> nth k y NaN = one.
Proof.
  intros Hp Hy Hlen (j & Hone & Hpj) Hk.
  assert (Hfin : Forall finite (vmul p y)).
  { unfold vmul. apply zipWith_Forall with (P := nonneg) (Q := binary);
      auto.
    intros a b Ha Hb. apply finite_tmul;
      [apply nonneg_finite, Ha | apply nonneg_finite, binary_nonneg, Hb]. }
  destruct (argmax_max Hfin Hk) as (Hkl & val & Hval & Hall).
  unfold vmul in Hkl. rewrite zipWith_length in Hkl.
  assert (Hj : (j < length y)%nat).
  { destruct (Nat.lt_ge_cases j (length y)) as [Hlt | Hge]; [exact Hlt |].
    rewrite nth_overflow in Hone by exact Hge. discriminate. }
  assert (Hpos : 0 < val).
  { rewrite Forall_forall in Hall.
    destruct (Hall (nth j (vmul p y) NaN)) as (a & Ha & Hle).
    - apply nth_In. unfold vmul. rewrite zipWith_length. lia.
    - rewrite vmul_nth, Hone in Ha by lia.
      destruct Hpj as (q & Hq & Hq0). rewrite Hq in Ha.
      simpl in Ha. injection Ha as <-. lra. }
  rewrite vmul_nth in Hval by lia.
  assert (Hbk : binary (nth k y NaN)).
  { rewrite Forall_forall in Hy. apply Hy, nth_In. lia. }
  destruct Hbk as [Hz | Ho]; [| exact Ho].
  assert (Hpk : nonneg (nth k p NaN)).
  { rewrite Forall_forall in Hp. apply Hp, nth_In. lia. }
  destruct Hpk as (q & Hq & _). rewrite Hq, Hz in Hval.
  simpl in Hval. injection Hval as Hval. lra.
Qed.

Lemma mapM_nth (A B : Type) (f : A -> result B) (l : list A) (r : list B)
    (i : nat) (a : A) (b : B) :
  mapM f l = Ok r -> (i < length l)%nat -> f (nth i l a) = Ok (nth i r b).
Proof.
  revert r i. induction l as [| x l IH]; intros r i H Hi;
    [simpl in Hi; lia |].
  cbn [mapM] in H. destruct (f x) as [y |] eqn:Ex; [| discriminate].
  cbn [bind] in H. destruct (mapM f l) as [ys |]; [| discriminate].
  cbn [bind] in H. injection H as <-.
  destruct i as [| i]; [exact Ex |].
  simpl. apply IH; [reflexivity | simpl in Hi; lia].
Qed.

(** X15.  The label [ConLoss] predicts for a sample (the class of the
    largest softmax probability among those [Y] lets through) is one of
    the sample's candidates, whatever [F.softmax] returns for the
    outputs, as soon as it has the shape of the 0/1 matrix [Y], its
    entries are numbers that are not negative and in every row some
    candidate has a positive probability. *)
Theorem ConLoss_prediction_is_candidate (softmax_fn : vec -> vec)
    (outputs Y : matrix) (target_predict : list nat) (i : nat) :
  let sm := output_sm_d_with softmax_fn (length Y) outputs in
  same_shape sm Y ->
  mall binary Y ->
  mall nonneg sm ->
  (forall i, (i < length Y)%nat ->
     candidate_mass (nth i Y []) (nth i sm [])) ->
  mapM argmax (mmul sm Y) = Ok target_predict ->
  (i < length Y)%nat ->
  nth (nth i target_predict 0%nat) (nth i Y []) NaN = one.
Proof.
  intros sm [Hlen Hrows] HY Hsm Hcand Htp Hi.
  unfold mall in HY, Hsm. rewrite Forall_forall in HY, Hsm.
  assert (Hil : (i < length (mmul sm Y))%nat).
  { unfold mmul. rewrite zipWith_length. lia. }
  pose proof (@mapM_nth _ _ argmax _ _ i [] 0%nat Htp Hil) as Hk.
  unfold mmul in Hk.
  rewrite (zipWith_nth vmul sm Y [] [] []) in Hk by lia.
  apply (@argmax_candidate (nth i sm []) (nth i Y [])).
  - apply Hsm, nth_In. lia.
  - apply HY, nth_In, Hi.
  - now apply Hrows.
  - now apply Hcand.
  - exact Hk.
Qed.

Lemma ConLoss_prediction_is_candidate_witness :
  exists target_predict,
    mapM argmax
      (mmul (output_sm_d_with softmax (length Example.Y) Example.outputs)
            Example.Y)
      = Ok target_predict /\
    nth (nth 0 target_predict 0%nat) (nth 0 Example.Y []) NaN = one.
Proof.
  eexists. split; [reflexivity |].
  apply (@ConLoss_prediction_is_candidate softmax Example.outputs Example.Y
           _ 0%nat).
  - exact example_softmax_shape.
  - repeat constructor; (now left) || (now right).
  - exact example_softmax_nonneg.
  - exact example_candidate_mass.
  - reflexivity.
  - simpl. lia.
Defined.
End ConLossMore.

(** ** ConLoss: a zero base temperature *)

Section ConLossErrors.
Import ConLoss.

Lemma py_div_zero (a : tnum) : py_div a zero = Err ZeroDivisionError.
Proof.
  unfold py_div, zero.
  destruct (Req_dec_T 0 0) as [_ | H]; [reflexivity | now elim H].
Qed.

(** X18.  [ConLoss] never returns when its base temperature is zero,
    whatever the inputs and whatever [F.softmax] returns: the ratio of
    the two temperatures is a division of Python numbers. *)
Theorem ConLoss_zero_base_temperature (softmax_fn : vec -> vec) (bT : tnum)
    (confidence outputs : matrix) (features : list matrix) (Y : matrix)
    (idx : list nat) :
  bT = zero ->
  forall r,
    forward_with bT softmax_fn confidence outputs features Y idx <> Ok r.
Proof.
  intros -> r. unfold forward_with.
  destruct (Nat.eqb _ 0); [discriminate |].
  destruct (mapM argmax _) as [tp | e]; [| discriminate]. cbn [bind].
  destruct (foldM _ _ _) as [ml | e]; [| discriminate]. cbn [bind].
  rewrite py_div_zero. discriminate.
Qed.

Lemma ConLoss_zero_base_temperature_witness :
  ~ exists r,
      forward zero Example.confidence Example.outputs Example.features
              Example.Y [0; 1] = Ok r.
Proof.
  intros [r H].
  exact (@ConLoss_zero_base_temperature softmax zero Example.confidence
           Example.outputs Example.features Example.Y [0; 1] eq_refl r H).
Defined.
End ConLossErrors.
